(** * draftfast/optimize.py: single-shot solve and the multi-iteration loop

    A shallow embedding of [run], [run_multi] and [reset_player_ban_lock].
    Player objects live in a store indexed by location, so that the pool, the
    filtered player list and every roster alias the same objects, as the
    Python lists do.  The modules that optimize.py imports (the pool filter,
    the Optimizer, the exposure helpers, the global random generator) are
    taken as parameters of the model. *)

From Stdlib Require Import ZArith Lia.
From stdpp Require Import gmap strings list.

Local Open Scope Z_scope.

Set Implicit Arguments.

(** ** Data *)

(** A player object.  optimize.py itself only ever writes [ban] and [lock];
    the other attributes are read by the collaborators.  Projections are
    numbers in the source and integers here. *)
Record Player := {
  name : string;
  pos : string;
  cost : Z;
  proj : Z;
  ban : bool;
  lock : bool;
}.

Abbreviation loc := nat (only parsing).
Abbreviation Heap := (gmap nat Player) (only parsing).

(** The values [exposure_random_seed] can take: [None], a number, a string. *)
Inductive Seed :=
| SeedNone
| SeedInt (z : Z)
| SeedStr (s : string).

(** Python truth value of a seed: [None], [0] and the empty string are false. *)
Definition seed_truthy (s : Seed) : bool :=
  match s with
  | SeedNone => false
  | SeedInt z => negb (z =? 0)
  | SeedStr s => negb (String.eqb s "")
  end.

(** Python truth value of an optional list: [None] and [[]] are false. *)
Definition list_truthy {A} (o : option (list A)) : bool :=
  match o with
  | Some (_ :: _) => true
  | _ => false
  end.

Definition or_empty {A} (o : option (list A)) : list A :=
  match o with
  | Some l => l
  | None => []
  end.

(** The only exception the code of optimize.py can raise by itself:
    [variables[i]] past the end of the variable list. *)
Inductive Exn :=
| IndexError.

Inductive outcome (A : Type) :=
| Returns (a : A)
| Raises (e : Exn).
Arguments Returns {A} a.
Arguments Raises {A} e.

(** Modelled from the spec: the LineupConstraints class (draftfast.
    lineup_contraints is not part of the sources).  [ban] and [lock] mark a
    name as forced out / forced in; nothing else is touched. *)
Record LineupConstraints := {
  lc_banned : list string;
  lc_locked : list string;
}.

Definition new_constraints : LineupConstraints :=
  {| lc_banned := []; lc_locked := [] |}.

Definition constraints_ban (c : LineupConstraints) (n : string) : LineupConstraints :=
  {| lc_banned := lc_banned c ++ [n]; lc_locked := lc_locked c |}.

Definition constraints_lock (c : LineupConstraints) (n : string) : LineupConstraints :=
  {| lc_banned := lc_banned c; lc_locked := lc_locked c ++ [n] |}.

Section Optimize.

(** Types owned by the absent modules. *)
Variables (RuleSet League PoolFilters Knobs Bound ExposureDct RngState : Type).

(** Modelled from the spec: the Roster container (draftfast.orm is not part
    of the sources): a passive record that accumulates the players handed
    to [add_player], in order.  It holds references to the player objects. *)
Record Roster := {
  roster_league : League;
  r_players : list loc;
}.

Definition roster_gen_for (l : League) : Roster :=
  {| roster_league := l; r_players := [] |}.

Definition add_player (p : loc) (r : Roster) : Roster :=
  {| roster_league := roster_league r; r_players := r_players r ++ [p] |}.

(** PlayerPoolSettings: the two name lists [run] reads, and the filter
    fields it passes on. *)
Record PlayerPoolSettings := {
  banned : option (list string);
  locked : option (list string);
  filters : PoolFilters;
}.

(** OptimizerSettings: the accumulated rosters and the tuning knobs. *)
Record OptimizerSettings := {
  existing_rosters : list Roster;
  knobs : Knobs;
}.

(** What the collaborators may read and write: the player objects and the
    global random generator. *)
Record World := {
  heap : Heap;
  rng : RngState;
}.

(** Lines written to standard output, kept symbolic. *)
Inductive Output :=
| OutOptimalFor (l : League)
| OutRoster (r : Roster)
| OutNoSolution (s : option OptimizerSettings) (count : nat)
| OutExposureTable (rs : list Roster) (b : option (list Bound))
| OutExposureMatrix (rs : list Roster)
| OutBlank
| OutUnder (n : string) (d : Z)
| OutOver (n : string) (d : Z).

(** The whole mutable state: the world, the settings object handed to
    [run_multi] (its [existing_rosters] list is extended in place) and
    standard output. *)
Record State := {
  world : World;
  settings : OptimizerSettings;
  stdout : list Output;
}.

(** Observation points of an execution.  They are ghost: no operation reads
    them back. *)
Inductive Event :=
| EvSeed (s : Seed)
| EvIteration (h : Heap)
| EvExposureArgs (existing : list Roster) (n : Z) (use_random : bool) (s : Seed)
| EvSolve (solved : bool) (h : Heap)
| EvAccept (r : Roster)
| EvReset.

(** Arguments of the Optimizer constructor. *)
Record OptimizerArgs := {
  oa_players : list loc;
  oa_rule_set : RuleSet;
  oa_settings : option OptimizerSettings;
  oa_lineup_constraints : LineupConstraints;
  oa_exposure_dct : option ExposureDct;
}.

(** The imported functions.  [optimizer_solve] builds the Optimizer and
    calls [solve()]: it answers with the feasibility flag and the solution
    value of each variable of [optimizer.variables], in order. *)
Record Collaborators := {
  league : RuleSet -> League;
  seed_rng : Seed -> RngState;
  filter_pool : list loc -> option PlayerPoolSettings -> World -> list loc * World;
  optimizer_solve : OptimizerArgs -> World -> (bool * list Z) * World;
  get_exposure_args :
    list Roster -> list Bound -> Z -> bool -> Seed -> World -> ExposureDct * World;
  check_exposure : list Roster -> option (list Bound) -> World -> list (string * Z);
}.

Variable C : Collaborators.

(** ** A small monad: state, exceptions and the event log *)

Definition M (A : Type) : Type := State -> outcome A * State * list Event.

Definition ret {A} (a : A) : M A := fun st => (Returns a, st, []).

Definition bind {A B} (m : M A) (f : A -> M B) : M B :=
  fun st =>
    match m st with
    | (Returns a, st1, e1) =>
        match f a st1 with
        | (o, st2, e2) => (o, st2, e1 ++ e2)
        end
    | (Raises x, st1, e1) => (Raises x, st1, e1)
    end.

Definition raise {A} (x : Exn) : M A := fun st => (Raises x, st, []).

Definition emit (e : Event) : M unit := fun st => (Returns tt, st, [e]).

Definition get_state : M State := fun st => (Returns st, st, []).

Definition print (o : Output) : M unit :=
  fun st =>
    (Returns tt,
     {| world := world st; settings := settings st; stdout := stdout st ++ [o] |},
     []).

(** A call into a collaborator: it sees and may change the world only. *)
Definition call {A} (f : World -> A * World) : M A :=
  fun st =>
    match f (world st) with
    | (a, w) =>
        (Returns a,
         {| world := w; settings := settings st; stdout := stdout st |},
         [])
    end.

Definition when (b : bool) (m : M unit) : M unit :=
  if b then m else ret tt.

(** State updates, named for the statements below. *)
Definition say (outs : list Output) (st : State) : State :=
  {| world := world st; settings := settings st; stdout := stdout st ++ outs |}.

Definition with_world (w : World) (st : State) : State :=
  {| world := w; settings := settings st; stdout := stdout st |}.

Notation "x <- m ;; k" := (bind m (fun x => k))
  (at level 100, m at next level, right associativity).
Notation "m ;;; k" := (bind m (fun _ => k))
  (at level 100, right associativity).

Definition outcome_of {A} (r : outcome A * State * list Event) : outcome A := fst (fst r).
Definition final {A} (r : outcome A * State * list Event) : State := snd (fst r).
Definition events {A} (r : outcome A * State * list Event) : list Event := snd r.

(** Readings of the event log. *)
Definition accepted (evs : list Event) : list Roster :=
  omap (fun e => match e with EvAccept r => Some r | _ => None end) evs.

Definition solve_flags (evs : list Event) : list bool :=
  omap (fun e => match e with EvSolve b _ => Some b | _ => None end) evs.

Definition iteration_heaps (evs : list Event) : list Heap :=
  omap (fun e => match e with EvIteration h => Some h | _ => None end) evs.

Definition seedings (evs : list Event) : list Seed :=
  omap (fun e => match e with EvSeed s => Some s | _ => None end) evs.

Definition hint_modes (evs : list Event) : list bool :=
  omap (fun e => match e with EvExposureArgs _ _ b _ => Some b | _ => None end) evs.

(** The arguments of each call of the exposure helper: the roster
    history, the iteration count and the seed it was handed. *)
Definition hint_calls (evs : list Event) : list (list Roster * Z * Seed) :=
  omap (fun e => match e with
                 | EvExposureArgs existing n _ s => Some (existing, n, s)
                 | _ => None
                 end) evs.

Definition resets (evs : list Event) : nat :=
  length (omap (fun e => match e with EvReset => Some tt | _ => None end) evs).

(** No pool player is banned or locked. *)
Definition flags_clear (player_pool : list loc) (h : Heap) : Prop :=
  forall l p, l ∈ player_pool -> h !! l = Some p -> ban p = false /\ lock p = false.

(** ** run *)

(** Lines 50-52: walk the players with their index and add those whose
    variable has solution value 1. *)
Fixpoint add_selected (players : list loc) (values : list Z) (i : nat)
    (roster : Roster) : M Roster :=
  match players with
  | [] => ret roster
  | player :: rest =>
      match values !! i with
      | None => raise IndexError
      | Some v =>
          add_selected rest values (S i)
            (if v =? 1 then add_player player roster else roster)
      end
  end.

(** Lines 20-28: the constraints built from the player settings. *)
Definition build_constraints (player_settings : option PlayerPoolSettings)
    : LineupConstraints :=
  let constraints := new_constraints in
  let constraints :=
    match player_settings with
    | Some ps =>
        if list_truthy (banned ps)
        then foldl constraints_ban constraints (or_empty (banned ps))
        else constraints
    | None => constraints
    end in
  match player_settings with
  | Some ps =>
      if list_truthy (locked ps)
      then foldl constraints_lock constraints (or_empty (locked ps))
      else constraints
  | None => constraints
  end.

(** Lines 13-70.  [roster_gen], when given, is a factory called without
    arguments: the model takes the roster it hands out.  The solve is
    logged with the player flags it leaves behind. *)
Definition run (rule_set : RuleSet) (player_pool : list loc)
    (optimizer_settings : option OptimizerSettings)
    (player_settings : option PlayerPoolSettings)
    (exposure_dct : option ExposureDct)
    (roster_gen : option Roster)
    (verbose : bool) : M (option Roster) :=
  let constraints := build_constraints player_settings in
  players <- call (filter_pool C player_pool player_settings) ;;
  sol <- call (optimizer_solve C
                 {| oa_players := players;
                    oa_rule_set := rule_set;
                    oa_settings := optimizer_settings;
                    oa_lineup_constraints := constraints;
                    oa_exposure_dct := exposure_dct |}) ;;
  st <- get_state ;;
  emit (EvSolve (fst sol) (heap (world st))) ;;;
  if fst sol then
    let roster :=
      match roster_gen with
      | Some made => made
      | None => roster_gen_for (league C rule_set)
      end in
    roster <- add_selected players (snd sol) 0 roster ;;
    when verbose
      (print (OutOptimalFor (league C rule_set)) ;;; print (OutRoster roster)) ;;;
    ret (Some roster)
  else
    when verbose (print (OutNoSolution optimizer_settings (length players))) ;;;
    ret None.

(** The filtered player list [run] works on, and what the solver answers
    in [run]: the feasibility flag and the solution values. *)
Definition run_players (player_pool : list loc)
    (player_settings : option PlayerPoolSettings) (st : State) : list loc :=
  fst (filter_pool C player_pool player_settings (world st)).

Definition run_solution (rule_set : RuleSet) (player_pool : list loc)
    (optimizer_settings : option OptimizerSettings)
    (player_settings : option PlayerPoolSettings)
    (exposure_dct : option ExposureDct) (st : State) : bool * list Z :=
  let pw := filter_pool C player_pool player_settings (world st) in
  fst (optimizer_solve C
         {| oa_players := fst pw;
            oa_rule_set := rule_set;
            oa_settings := optimizer_settings;
            oa_lineup_constraints := build_constraints player_settings;
            oa_exposure_dct := exposure_dct |} (snd pw)).

(** The players paired with a solution value equal to 1, in list order. *)
Definition picks (players : list loc) (values : list Z) : list loc :=
  fst <$> filter (fun pv => snd pv = 1) (zip players values).

(** The roster [run] starts from. *)
Definition initial_roster (rule_set : RuleSet) (roster_gen : option Roster) : Roster :=
  match roster_gen with
  | Some made => made
  | None => roster_gen_for (league C rule_set)
  end.

(** The Optimizer creates one variable per player: a feasible answer has a
    solution value for every player. *)
Definition solver_arity : Prop :=
  forall args w,
    fst (fst (optimizer_solve C args w)) = true ->
    (length (oa_players args) <= length (snd (fst (optimizer_solve C args w))))%nat.

(** The exposure helper looks at its [random_seed] argument only when
    [use_random] is set. *)
Definition hints_ignore_seed (s : Seed) : Prop :=
  forall existing bs n w,
    get_exposure_args C existing bs n false s w
    = get_exposure_args C existing bs n false SeedNone w.

(** Two states that differ at most in the state of the global generator. *)
Definition same_but_rng (st1 st2 : State) : Prop :=
  heap (world st1) = heap (world st2)
  /\ settings st1 = settings st2
  /\ stdout st1 = stdout st2.

(** The collaborators leave the global generator alone unless randomized
    exposure is asked for: what the pool filter, the Optimizer, the
    exposure report and, with [use_random] off, the exposure helper answer
    and do to the players does not depend on the generator's state. *)
Definition generator_unused : Prop :=
  (forall pool ps w1 w2,
      heap w1 = heap w2 ->
      fst (filter_pool C pool ps w1) = fst (filter_pool C pool ps w2)
      /\ heap (snd (filter_pool C pool ps w1)) = heap (snd (filter_pool C pool ps w2)))
  /\ (forall args w1 w2,
         heap w1 = heap w2 ->
         fst (optimizer_solve C args w1) = fst (optimizer_solve C args w2)
         /\ heap (snd (optimizer_solve C args w1))
            = heap (snd (optimizer_solve C args w2)))
  /\ (forall existing bs n s w1 w2,
         heap w1 = heap w2 ->
         fst (get_exposure_args C existing bs n false s w1)
         = fst (get_exposure_args C existing bs n false s w2)
         /\ heap (snd (get_exposure_args C existing bs n false s w1))
            = heap (snd (get_exposure_args C existing bs n false s w2)))
  /\ (forall rosters b w1 w2,
         heap w1 = heap w2 ->
         check_exposure C rosters b w1 = check_exposure C rosters b w2).

(** ** reset_player_ban_lock *)

(** Lines 137-140: [p.ban = False; p.lock = False] for every object of
    the pool list; the objects are the ones the rosters refer to. *)
Definition clear_ban_lock (p : Player) : Player :=
  {| name := name p; pos := pos p; cost := cost p; proj := proj p;
     ban := false; lock := false |}.

Definition reset_heap (player_pool : list loc) (h : Heap) : Heap :=
  foldl (fun h p => alter clear_ban_lock p h) h player_pool.

Definition reset_player_ban_lock (player_pool : list loc) : M unit :=
  fun st =>
    (Returns tt,
     {| world := {| heap := reset_heap player_pool (heap (world st));
                    rng := rng (world st) |};
        settings := settings st;
        stdout := stdout st |},
     []).

(** ** run_multi *)

(** Line 86: [random.seed(seed)]. *)
Definition random_seed (s : Seed) : M unit :=
  fun st =>
    (Returns tt,
     {| world := {| heap := heap (world st); rng := seed_rng C s |};
        settings := settings st;
        stdout := stdout st |},
     [EvSeed s]).

(** Line 109: [optimizer_settings.existing_rosters += [roster]]. *)
Definition extend_existing (roster : Roster) : M unit :=
  fun st =>
    (Returns tt,
     {| world := world st;
        settings := {| existing_rosters := existing_rosters (settings st) ++ [roster];
                       knobs := knobs (settings st) |};
        stdout := stdout st |},
     []).

Section Loop.
Variables (iterations : Z) (rule_set : RuleSet) (player_pool : list loc)
          (player_settings : option PlayerPoolSettings) (verbose : bool)
          (exposure_bounds : option (list Bound))
          (exposure_random_seed : Seed).

(** Lines 90-98. *)
Definition exposure_hints : M (option ExposureDct) :=
  if list_truthy exposure_bounds then
    st <- get_state ;;
    emit (EvExposureArgs (existing_rosters (settings st)) iterations
            (seed_truthy exposure_random_seed) exposure_random_seed) ;;;
    dct <- call (get_exposure_args C
                   (existing_rosters (settings st))
                   (or_empty exposure_bounds)
                   iterations
                   (seed_truthy exposure_random_seed)
                   exposure_random_seed) ;;
    ret (Some dct)
  else ret None.

(** Lines 90-107: the hints of this round and the solve. *)
Definition attempt : M (option Roster) :=
  st <- get_state ;;
  emit (EvIteration (heap (world st))) ;;;
  exposure_dct <- exposure_hints ;;
  st <- get_state ;;
  run rule_set player_pool (Some (settings st)) player_settings
    exposure_dct None verbose.

(** Lines 89-117: the body of the loop runs once per remaining round;
    [break] ends the recursion.  A roster object is always true. *)
Fixpoint iterate (rounds : nat) (rosters : list Roster) : M (list Roster) :=
  match rounds with
  | O => ret rosters
  | S rounds' =>
      roster <- attempt ;;
      match roster with
      | Some r =>
          extend_existing r ;;;
          emit (EvAccept r) ;;;
          emit EvReset ;;;
          reset_player_ban_lock player_pool ;;;
          iterate rounds' (rosters ++ [r])
      | None => ret rosters
      end
  end.

(** Lines 128-132. *)
Definition print_diffs (exposure_diffs : list (string * Z)) : M unit :=
  foldr (fun nd k =>
           print (if snd nd <? 0 then OutUnder (fst nd) (snd nd)
                  else OutOver (fst nd) (snd nd)) ;;; k)
        (ret tt) exposure_diffs.

Definition nonempty {A} (l : list A) : bool :=
  match l with
  | [] => false
  | _ :: _ => true
  end.

(** The state in which the next round starts after roster [r] was
    accepted: lines 109 and 117. *)
Definition next_round (r : Roster) (st : State) : State :=
  {| world := {| heap := reset_heap player_pool (heap (world st));
                 rng := rng (world st) |};
     settings := {| existing_rosters := existing_rosters (settings st) ++ [r];
                    knobs := knobs (settings st) |};
     stdout := stdout st |}.

(** The state in which the loop starts: seeded for a true seed. *)
Definition seeded (st : State) : State :=
  {| world := {| heap := heap (world st); rng := seed_rng C exposure_random_seed |};
     settings := settings st;
     stdout := stdout st |}.

Definition entry (st : State) : State :=
  if seed_truthy exposure_random_seed then seeded st else st.

Definition diff_line (nd : string * Z) : Output :=
  if snd nd <? 0 then OutUnder (fst nd) (snd nd) else OutOver (fst nd) (snd nd).

(** The deviation map [run_multi] hands back for these rosters, and the
    lines it prints after the loop. *)
Definition reported_diffs (rosters : list Roster) (w : World) : list (string * Z) :=
  if nonempty rosters && verbose
  then check_exposure C rosters exposure_bounds w
  else [].

Definition report (rosters : list Roster) (w : World) : list Output :=
  if nonempty rosters && verbose
  then [OutExposureTable rosters exposure_bounds; OutBlank;
        OutExposureMatrix rosters; OutBlank]
       ++ (diff_line <$> check_exposure C rosters exposure_bounds w)
  else [].

(** Lines 73-134.  The settings object is the one of the state; the seed
    is tested for its truth value twice, at line 85 and in
    [bool(exposure_random_seed)] at line 96. *)
Definition run_multi : M (list Roster * list (string * Z)) :=
  when (seed_truthy exposure_random_seed) (random_seed exposure_random_seed) ;;;
  rosters <- iterate (Z.to_nat iterations) [] ;;
  if nonempty rosters && verbose then
    print (OutExposureTable rosters exposure_bounds) ;;;
    print OutBlank ;;;
    print (OutExposureMatrix rosters) ;;;
    print OutBlank ;;;
    st <- get_state ;;
    let exposure_diffs := check_exposure C rosters exposure_bounds (world st) in
    print_diffs exposure_diffs ;;;
    ret (rosters, exposure_diffs)
  else
    ret (rosters, []).

End Loop.

(** What a finished [run_multi] handed back. *)
Definition returned_rosters
    (r : outcome (list Roster * list (string * Z)) * State * list Event)
    : list Roster :=
  match outcome_of r with
  | Returns (rosters, _) => rosters
  | Raises _ => []
  end.

Definition returned_diffs
    (r : outcome (list Roster * list (string * Z)) * State * list Event)
    : list (string * Z) :=
  match outcome_of r with
  | Returns (_, exposure_diffs) => exposure_diffs
  | Raises _ => []
  end.

End Optimize.

Arguments OutOptimalFor {League Knobs Bound} l.
Arguments OutRoster {League Knobs Bound} r.
Arguments OutNoSolution {League Knobs Bound} s count.
Arguments OutExposureTable {League Knobs Bound} rs b.
Arguments OutExposureMatrix {League Knobs Bound} rs.
Arguments OutBlank {League Knobs Bound}.
Arguments OutUnder {League Knobs Bound} n d.
Arguments OutOver {League Knobs Bound} n d.
Arguments EvSeed {League} s.
Arguments EvIteration {League} h.
Arguments EvExposureArgs {League} existing n use_random s.
Arguments EvSolve {League} solved h.
Arguments EvAccept {League} r.
Arguments EvReset {League}.
Arguments diff_line {League Knobs Bound} nd.

(** ** The collaborators as the specification describes them

    None of the imported modules is part of the sources.  This module gives
    each of them one executable reading of the specification, small enough
    to run: it supplies the concrete executions below and shows that the
    assumptions made on the collaborators can be met. *)
Module Spec.

(** Modelled from the spec: the rule set (draftfast.rules): roster size,
    salary cap, position quota table and league. *)
Record RuleSet := {
  roster_size : nat;
  salary_cap : Z;
  quota : list (string * nat);
  rs_league : string;
}.

(** Modelled from the spec: the static eligibility fields of the player
    pool settings (draftfast.settings), here a salary floor. *)
Record PoolFilters := {
  min_cost : Z;
}.

(** Modelled from the spec: an exposure bound, in numbers of rosters. *)
Record Bound := {
  b_name : string;
  b_min : Z;
  b_max : Z;
}.

(** Modelled from the spec: the hints of the exposure controller, names
    forced out and names forced in. *)
Record ExposureDct := {
  hint_banned : list string;
  hint_locked : list string;
}.

Abbreviation Roster := (Roster string) (only parsing).
Abbreviation World := (World Z) (only parsing).

Definition ghost : Player :=
  {| name := ""; pos := ""; cost := 0; proj := 0; ban := false; lock := false |}.

Definition player_at (h : Heap) (l : loc) : Player := default ghost (h !! l).

(** The global generator, as a linear congruential one. *)
Definition seed_rng (s : Seed) : Z :=
  match s with
  | SeedNone => 0
  | SeedInt z => z
  | SeedStr s => Z.of_nat (String.length s)
  end.

Definition next_rng (r : Z) : Z := (r * 1103515245 + 12345) mod 2147483648.

(** Modelled from the spec: the pool filter (draftfast.player_pool):
    narrows the pool by a static attribute and keeps its order. *)
Definition filter_pool (pool : list loc)
    (player_settings : option (PlayerPoolSettings PoolFilters)) (w : World)
    : list loc * World :=
  match player_settings with
  | None => (pool, w)
  | Some ps =>
      (filter (fun l => bool_decide (min_cost (filters ps) ≤ cost (player_at (heap w) l))) pool,
       w)
  end.

Definition in_names (n : string) (names : list string) : bool :=
  bool_decide (n ∈ names).

Definition roster_has (h : Heap) (n : string) (r : Roster) : bool :=
  existsb (fun l => String.eqb (name (player_at h l)) n) (r_players r).

(** Number of rosters in which a player of that name appears. *)
Definition observed (h : Heap) (rosters : list Roster) (n : string) : Z :=
  Z.of_nat (length (filter (fun r => roster_has h n r = true) rosters)).

(** Modelled from the spec: the exposure controller (draftfast.exposure,
    [get_exposure_args]).  A player at or over the upper bound is forced
    out; a player who can only reach the lower bound by being included in
    every remaining roster is forced in; among the other players still
    under their lower bound one is forced in, drawn from the global
    generator when [use_random] is set, the first in bound order
    otherwise. *)
Definition get_exposure_args (existing : list Roster)
    (bounds : list Bound) (n : Z) (use_random : bool) (random_seed : Seed)
    (w : World) : ExposureDct * World :=
  let seen b := observed (heap w) existing (b_name b) in
  let remaining := n - Z.of_nat (length existing) in
  let out := filter (fun b => bool_decide (b_max b ≤ seen b)) bounds in
  let must := filter (fun b => bool_decide (seen b < b_min b ∧ remaining ≤ b_min b - seen b)) bounds in
  let open := filter (fun b => bool_decide (seen b < b_min b ∧ b_min b - seen b < remaining)) bounds in
  match open with
  | [] =>
      ({| hint_banned := b_name <$> out; hint_locked := b_name <$> must |}, w)
  | first :: _ =>
      if use_random then
        let pick := default first (open !! Z.to_nat (rng w mod Z.of_nat (length open))) in
        ({| hint_banned := b_name <$> out;
            hint_locked := (b_name <$> must) ++ [b_name pick] |},
         {| heap := heap w; rng := next_rng (rng w) |})
      else
        ({| hint_banned := b_name <$> out;
            hint_locked := (b_name <$> must) ++ [b_name first] |}, w)
  end.

(** Modelled from the spec: the exposure report (draftfast.exposure,
    [check_exposure]): per bound, observed count minus the bound it
    misses; zero inside the bounds. *)
Definition check_exposure (rosters : list Roster) (bounds : option (list Bound))
    (w : World) : list (string * Z) :=
  (fun b =>
     let c := observed (heap w) rosters (b_name b) in
     (b_name b,
      if c <? b_min b then c - b_min b
      else if b_max b <? c then c - b_max b
      else 0)) <$> or_empty bounds.

(** *** The formulation and a complete search standing for the solver *)

(** The overlay: the hints are written onto the players' flags. *)
Definition apply_hint (dct : ExposureDct) (p : Player) : Player :=
  {| name := name p; pos := pos p; cost := cost p; proj := proj p;
     ban := ban p || in_names (name p) (hint_banned dct);
     lock := lock p || in_names (name p) (hint_locked dct) |}.

Definition overlay (dct : option ExposureDct) (players : list loc) (h : Heap) : Heap :=
  match dct with
  | None => h
  | Some d => foldl (fun h l => alter (apply_hint d) l h) h players
  end.

Definition forced_out (c : LineupConstraints) (p : Player) : bool :=
  ban p || in_names (name p) (lc_banned c).

Definition forced_in (c : LineupConstraints) (p : Player) : bool :=
  lock p || in_names (name p) (lc_locked c).

(** All vectors of [n] binary values. *)
Fixpoint assignments (n : nat) : list (list Z) :=
  match n with
  | O => [[]]
  | S k => (cons 0 <$> assignments k) ++ (cons 1 <$> assignments k)
  end.

Definition weighted (f : Player -> Z) (ps : list Player) (vals : list Z) : Z :=
  foldr Z.add 0 (zip_with (fun p v => f p * v) ps vals).

Definition chosen (ps : list Player) (vals : list Z) : list Player :=
  fst <$> filter (fun pv => snd pv = 1) (zip ps vals).

(** One constraint per forced player: [variable == 1] or [variable == 0]. *)
Definition forced_ok (c : LineupConstraints) (ps : list Player) (vals : list Z) : bool :=
  forallb (fun pv =>
             (implb (forced_in c (fst pv)) (snd pv =? 1))
             && (implb (forced_out c (fst pv)) (snd pv =? 0)))
          (zip ps vals).

(** The structural constraints of the rule set. *)
Definition structure_ok (rs : RuleSet) (ps : list Player) (vals : list Z) : bool :=
  (length (chosen ps vals) =? roster_size rs)%nat
  && (weighted cost ps vals <=? salary_cap rs)
  && forallb (fun q =>
                (length (filter (fun p => pos p = fst q) (chosen ps vals)) =? snd q)%nat)
             (quota rs).

Definition satisfies (rs : RuleSet) (c : LineupConstraints) (ps : list Player)
    (vals : list Z) : bool :=
  structure_ok rs ps vals && forced_ok c ps vals.

(** The best of the candidates, the earliest among equals. *)
Definition best_of (ps : list Player) (first : list Z) (others : list (list Z)) : list Z :=
  foldl (fun b v => if weighted proj ps b <? weighted proj ps v then v else b)
        first others.

(** Modelled from the spec: the Optimizer (draftfast.optimizer) with its
    solver backend: one binary variable per player, the rule set's
    constraints, [variable == 1] for each locked and [variable == 0] for
    each banned player, the objective the sum of value times variable. *)
Definition optimizer_solve
    (args : OptimizerArgs RuleSet string unit ExposureDct) (w : World)
    : (bool * list Z) * World :=
  let h := overlay (oa_exposure_dct args) (oa_players args) (heap w) in
  let ps := player_at h <$> oa_players args in
  let w' := {| heap := h; rng := rng w |} in
  match filter (fun v => satisfies (oa_rule_set args) (oa_lineup_constraints args) ps v = true)
               (assignments (length ps)) with
  | [] => ((false, []), w')
  | first :: others => ((true, best_of ps first others), w')
  end.

(** Some assignment of the variables meets every constraint of the
    formulation: what the glossary calls feasible. *)
Definition feasible (rs : RuleSet) (c : LineupConstraints) (ps : list Player) : Prop :=
  exists vals,
    length vals = length ps
    /\ Forall (fun v => v = 0 \/ v = 1) vals
    /\ satisfies rs c ps vals = true.

Definition collab
    : Collaborators RuleSet string PoolFilters unit Bound ExposureDct Z :=
  Build_Collaborators rs_league seed_rng filter_pool optimizer_solve
    get_exposure_args check_exposure.

End Spec.

(** ** Concrete pools and settings *)
Module Scenario.
Import Spec.

Definition mk (n : string) (c v : Z) (b l : bool) : Player :=
  {| name := n; pos := "P"; cost := c; proj := v; ban := b; lock := l |}.

Definition heap_of (ps : list Player) : Heap :=
  list_to_map (zip (seq 0 (length ps)) ps).

Definition state_of (ps : list Player) (g : Z) : State string unit Bound Z :=
  {| world := {| heap := heap_of ps; rng := g |};
     settings := {| existing_rosters := []; knobs := tt |};
     stdout := [] |}.

(** The example of section 8: ten players, five to pick, a cap of 100. *)
Definition ten : list Player :=
  [mk "a" 10 10 false false; mk "b" 20 20 false false; mk "c" 30 30 false false;
   mk "d" 40 40 false false; mk "e" 50 50 false false; mk "f" 15 15 false false;
   mk "g" 25 25 false false; mk "h" 35 35 false false; mk "i" 45 45 false false;
   mk "j" 55 55 false false].

Definition five_of_ten : RuleSet :=
  {| roster_size := 5; salary_cap := 100; quota := []; rs_league := "NBA" |}.

Definition five_of_ten_150 : RuleSet :=
  {| roster_size := 5; salary_cap := 150; quota := []; rs_league := "NBA" |}.

Definition ban_a_lock_e : PlayerPoolSettings PoolFilters :=
  {| banned := Some ["a"]; locked := Some ["e"]; filters := {| min_cost := 0 |} |}.

(** Two players, both to be picked. *)
Definition pair : list Player :=
  [mk "a" 10 10 false false; mk "b" 20 20 false false].

Definition both : RuleSet :=
  {| roster_size := 2; salary_cap := 100; quota := []; rs_league := "NBA" |}.

Definition one : RuleSet :=
  {| roster_size := 1; salary_cap := 100; quota := []; rs_league := "NBA" |}.

(** The same pair with "b" banned by the caller before the run. *)
Definition pair_b_banned : list Player :=
  [mk "a" 10 10 false false; mk "b" 20 20 true false].

Definition a_at_most_once : list Bound :=
  [{| b_name := "a"; b_min := 0; b_max := 1 |}].

Definition b_twice : list Bound :=
  [{| b_name := "b"; b_min := 2; b_max := 2 |}].

Definition a_or_b : list Bound :=
  [{| b_name := "a"; b_min := 1; b_max := 2 |};
   {| b_name := "b"; b_min := 1; b_max := 2 |}].

(** An Optimizer that exposes a single variable however many players it
    is given; the other collaborators are the ones of [Spec]. *)
Definition one_variable : Collaborators RuleSet string PoolFilters unit Bound ExposureDct Z :=
  Build_Collaborators rs_league seed_rng filter_pool
    (fun args w =>
       let sw := optimizer_solve args w in
       ((fst (fst sw), take 1 (snd (fst sw))), snd sw))
    get_exposure_args check_exposure.

Definition roster_of (ls : list loc) : Roster :=
  {| roster_league := "NBA"; r_players := ls |}.

(** The single-shot example of section 8. *)
Definition example_run :=
  run collab five_of_ten (seq 0 10) None None None None false
    (state_of ten 0).

(** The ten players under a cap of 150, "a" banned and "e" locked. *)
Definition constrained_run :=
  run collab five_of_ten_150 (seq 0 10) None (Some ban_a_lock_e)
    None None false (state_of ten 0).

(** Three rounds asked; in the second the hint bans "a" and no roster of
    two is left. *)
Definition halted_run :=
  run_multi collab 3 both [0; 1]%nat None false
    (Some a_at_most_once) SeedNone (state_of pair 0).

(** One round, without and with [verbose]. *)
Definition quiet_run :=
  run_multi collab 1 both [0; 1]%nat None false
    (Some b_twice) SeedNone (state_of pair 0).

Definition verbose_run :=
  run_multi collab 1 both [0; 1]%nat None true
    (Some b_twice) SeedNone (state_of pair 0).

(** Two rounds on a pool that comes in with "b" banned. *)
Definition prebanned_run :=
  run_multi collab 2 one [0; 1]%nat None false None SeedNone
    (state_of pair_b_banned 0).

(** Three rounds with seed [s] from generator state [g], two players
    being under their lower bound. *)
Definition drawn_run (s : Seed) (g : Z) :=
  run_multi collab 3 one [0; 1]%nat None false
    (Some a_or_b) s (state_of pair g).

End Scenario.

Unset Implicit Arguments.

(** * Properties of the code, for any collaborators *)
Section Facts.

Context {RuleSet League PoolFilters Knobs Bound ExposureDct RngState : Type}.
Variable C : Collaborators RuleSet League PoolFilters Knobs Bound ExposureDct RngState.

Implicit Types (st : State League Knobs Bound RngState)
               (rosters : list (Roster League))
               (evs : list (Event League)).

(** ** The extraction loop of [run] *)

Lemma picks_cons p v players values :
  picks (p :: players) (v :: values)
  = (if v =? 1 then [p] else []) ++ picks players values.
Proof.
  unfold picks. simpl. rewrite filter_cons. simpl.
  destruct (Z.eqb_spec v 1) as [->|Hne].
  - rewrite decide_True by done. reflexivity.
  - rewrite decide_False by done. reflexivity.
Qed.

Lemma add_selected_ok players : forall values i (roster : Roster League) st,
  (length players <= length (drop i values))%nat ->
  add_selected (Bound:=Bound) players values i roster st
  = (Returns {| roster_league := roster_league roster;
                r_players := r_players roster ++ picks players (drop i values) |},
     st, []).
Proof.
  induction players as [|p players IH]; intros values i roster st Hlen.
  - simpl. unfold ret, picks. simpl. rewrite app_nil_r. by destruct roster.
  - simpl. destruct (values !! i) as [v|] eqn:Hv.
    + rewrite (drop_S _ _ _ Hv) in Hlen |- *. simpl in Hlen.
      rewrite IH by lia. rewrite picks_cons.
      destruct (v =? 1); simpl; [rewrite <- app_assoc|]; reflexivity.
    + apply lookup_ge_None in Hv. rewrite drop_ge in Hlen by done.
      simpl in Hlen. lia.
Qed.

Lemma add_selected_short players : forall values i (roster : Roster League) st,
  (length (drop i values) < length players)%nat ->
  add_selected (Bound:=Bound) players values i roster st = (Raises IndexError, st, []).
Proof.
  induction players as [|p players IH]; intros values i roster st Hlen.
  - simpl in Hlen. lia.
  - simpl. destruct (values !! i) as [v|] eqn:Hv; [|reflexivity].
    rewrite (drop_S _ _ _ Hv) in Hlen. simpl in Hlen.
    apply IH. lia.
Qed.

Lemma add_selected_frame players : forall values i (roster : Roster League) st,
  final (add_selected (Bound:=Bound) players values i roster st) = st
  /\ events (add_selected (Bound:=Bound) players values i roster st) = [].
Proof.
  induction players as [|p players IH]; intros values i roster st; simpl.
  - done.
  - destruct (values !! i); [apply IH | done].
Qed.

(** ** [run] in closed form *)

Lemma say_nil st : say [] st = st.
Proof. unfold say. rewrite app_nil_r. by destruct st. Qed.

Lemma run_eq rule_set pool os ps dct gen verbose st :
  let pw := filter_pool C pool ps (world st) in
  let sw := optimizer_solve C
              {| oa_players := fst pw; oa_rule_set := rule_set; oa_settings := os;
                 oa_lineup_constraints := build_constraints ps;
                 oa_exposure_dct := dct |} (snd pw) in
  let st2 := with_world (snd sw) st in
  let ev := [EvSolve (League:=League) (fst (fst sw)) (heap (snd sw))] in
  run C rule_set pool os ps dct gen verbose st
  = if fst (fst sw) then
      match (length (fst pw) <=? length (snd (fst sw)))%nat with
      | true =>
          let r := {| roster_league := roster_league (initial_roster C rule_set gen);
                      r_players := r_players (initial_roster C rule_set gen)
                                   ++ picks (fst pw) (snd (fst sw)) |} in
          (Returns (Some r),
           say (if verbose then [OutOptimalFor (league C rule_set); OutRoster r] else []) st2,
           ev)
      | false => (Raises IndexError, st2, ev)
      end
    else
      (Returns None,
       say (if verbose then [OutNoSolution os (length (fst pw))] else []) st2,
       ev).
Proof.
  intros pw sw st2 ev. subst ev st2 sw pw.
  unfold run, bind, call, get_state, emit, with_world.
  destruct (filter_pool C pool ps (world st)) as [players w1]. simpl.
  destruct (optimizer_solve C _ w1) as [[solved values] w2]. simpl.
  destruct solved.
  - fold (initial_roster C rule_set gen).
    destruct (Nat.leb_spec (length players) (length values)) as [Hle|Hlt].
    + rewrite add_selected_ok by (rewrite drop_0; done). rewrite drop_0.
      destruct verbose; simpl; unfold say; simpl.
      * rewrite <- app_assoc. reflexivity.
      * rewrite app_nil_r. reflexivity.
    + rewrite add_selected_short by (rewrite drop_0; done). reflexivity.
  - destruct verbose; simpl; unfold say; simpl; [reflexivity|].
    rewrite app_nil_r. reflexivity.
Qed.

Lemma picks_elem players values p :
  p ∈ picks players values
  <-> exists i, players !! i = Some p /\ values !! i = Some 1.
Proof.
  unfold picks. rewrite list_elem_of_fmap. split.
  - intros [[q v] [-> Hin]]. apply list_elem_of_filter in Hin as [Hv Hin].
    simpl in Hv. subst v. apply list_elem_of_lookup in Hin as [i Hi].
    apply lookup_zip_with_Some in Hi as (y & z & Heq & Hy & Hz).
    inversion Heq; subst. eauto.
  - intros (i & Hp & Hv). exists (p, 1). split; [done|].
    apply list_elem_of_filter. split; [done|].
    apply list_elem_of_lookup. exists i.
    apply lookup_zip_with_Some. eauto.
Qed.

Lemma picks_sublist players : forall values, sublist (picks players values) players.
Proof.
  induction players as [|p players IH]; intros [|v values]; try apply sublist_nil_l.
  rewrite picks_cons. destruct (v =? 1); simpl.
  - apply sublist_skip, IH.
  - apply sublist_cons, IH.
Qed.

(** C3: when the solve succeeds, every player has a variable and the roster
    starts empty, [run] returns a roster that holds exactly the players
    whose solution value is 1, each added in the order of the player
    list: a player is in the roster if and only if some position of the
    list holds it with value 1. *)
Theorem run_roster_is_selection rule_set pool os ps dct gen verbose st :
  let players := run_players C pool ps st in
  let sol := run_solution C rule_set pool os ps dct st in
  fst sol = true ->
  (length players <= length (snd sol))%nat ->
  r_players (initial_roster C rule_set gen) = [] ->
  exists r,
    outcome_of (run C rule_set pool os ps dct gen verbose st) = Returns (Some r)
    /\ r_players r = picks players (snd sol)
    /\ sublist (r_players r) players
    /\ forall p, p ∈ r_players r
                 <-> exists i, players !! i = Some p /\ snd sol !! i = Some 1.
Proof.
  intros players sol Hsolved Hlen Hfresh. subst players sol.
  unfold run_players, run_solution in *.
  rewrite run_eq. rewrite Hsolved.
  apply Nat.leb_le in Hlen. rewrite Hlen. eexists. split; [reflexivity|].
  simpl. rewrite Hfresh. simpl. split; [reflexivity|]. split.
  - apply picks_sublist.
  - intros p. apply picks_elem.
Qed.

(** C7: [run] returns [None], and raises nothing, exactly when the solve
    flag is false; the one solve it makes is logged with that flag. *)
Theorem run_none_iff_infeasible rule_set pool os ps dct gen verbose st :
  (outcome_of (run C rule_set pool os ps dct gen verbose st) = Returns None
   <-> fst (run_solution C rule_set pool os ps dct st) = false)
  /\ solve_flags (events (run C rule_set pool os ps dct gen verbose st))
     = [fst (run_solution C rule_set pool os ps dct st)].
Proof.
  unfold run_solution. rewrite run_eq.
  destruct (fst (fst (optimizer_solve C _ _))) eqn:Hsolved.
  - split; [|by destruct (_ <=? _)%nat].
    split; [|done]. by destruct (_ <=? _)%nat.
  - done.
Qed.

(** ** The event log across an accepted round *)

Section Log.
Variables (e1 e3 : list (Event League)) (r : Roster League).

Lemma accepted_round :
  accepted (e1 ++ EvAccept r :: EvReset :: e3) = accepted e1 ++ r :: accepted e3.
Proof. unfold accepted. by rewrite omap_app. Qed.

Lemma solve_flags_round :
  solve_flags (e1 ++ EvAccept r :: EvReset :: e3) = solve_flags e1 ++ solve_flags e3.
Proof. unfold solve_flags. by rewrite omap_app. Qed.

Lemma iteration_heaps_round :
  iteration_heaps (e1 ++ EvAccept r :: EvReset :: e3)
  = iteration_heaps e1 ++ iteration_heaps e3.
Proof. unfold iteration_heaps. by rewrite omap_app. Qed.

Lemma seedings_round :
  seedings (e1 ++ EvAccept r :: EvReset :: e3) = seedings e1 ++ seedings e3.
Proof. unfold seedings. by rewrite omap_app. Qed.

Lemma hint_modes_round :
  hint_modes (e1 ++ EvAccept r :: EvReset :: e3) = hint_modes e1 ++ hint_modes e3.
Proof. unfold hint_modes. by rewrite omap_app. Qed.

Lemma resets_round :
  resets (e1 ++ EvAccept r :: EvReset :: e3) = (resets e1 + S (resets e3))%nat.
Proof. unfold resets. by rewrite omap_app, length_app. Qed.

Lemma last_round (e : Event League) :
  last e3 = Some e -> last (e1 ++ EvAccept r :: EvReset :: e3) = Some e.
Proof.
  intros He. rewrite last_app.
  change (EvAccept r :: EvReset :: e3) with ([EvAccept r; EvReset] ++ e3).
  by rewrite last_app, He.
Qed.
End Log.

(** ** One round of the loop *)

Section Rounds.
Variables (iterations : Z) (rule_set : RuleSet) (pool : list loc)
          (ps : option (PlayerPoolSettings PoolFilters)) (verbose : bool)
          (bounds : option (list Bound)) (seed : Seed).

Let attempt_ := attempt C iterations rule_set pool ps verbose bounds seed.
Let iterate_ := iterate C iterations rule_set pool ps verbose bounds seed.

Lemma exposure_hints_eq st :
  exists dct w,
    exposure_hints C iterations bounds seed st
    = (Returns dct, with_world w st,
       if list_truthy bounds
       then [EvExposureArgs (existing_rosters (settings st)) iterations
               (seed_truthy seed) seed]
       else []).
Proof.
  unfold exposure_hints. destruct (list_truthy bounds).
  - unfold bind, get_state, emit, call. simpl.
    destruct (get_exposure_args C _ _ _ _ _ _) as [dct w]. simpl.
    by exists (Some dct), w.
  - exists None, (world st). unfold ret, with_world. by destruct st.
Qed.

Lemma attempt_facts st :
  let r := attempt_ st in
  settings (final r) = settings st
  /\ iteration_heaps (events r) = [heap (world st)]
  /\ accepted (events r) = []
  /\ resets (events r) = 0%nat
  /\ seedings (events r) = []
  /\ hint_modes (events r) = (if list_truthy bounds then [seed_truthy seed] else [])
  /\ solve_flags (events r)
     = [match outcome_of r with Returns None => false | _ => true end]
  /\ (outcome_of r = Returns None ->
       last (events r) = Some (EvSolve false (heap (world (final r))))).
Proof.
  subst attempt_. unfold attempt, bind, get_state, emit. simpl.
  destruct (exposure_hints_eq st) as (dct & w & ->). simpl.
  rewrite run_eq. simpl.
  destruct (filter_pool C pool ps w) as [players w1]. simpl.
  destruct (optimizer_solve C _ w1) as [[solved values] w2]. simpl.
  destruct solved; [destruct (_ <=? _)%nat|];
    destruct (list_truthy bounds); simpl; repeat split; try done.
Qed.

Lemma iterate_S k rosters st :
  iterate_ (S k) rosters st
  = match attempt_ st with
    | (Returns (Some r), st1, e1) =>
        let rest := iterate_ k (rosters ++ [r]) (next_round pool r st1) in
        (outcome_of rest, final rest, e1 ++ EvAccept r :: EvReset :: events rest)
    | (Returns None, st1, e1) => (Returns rosters, st1, e1)
    | (Raises x, st1, e1) => (Raises x, st1, e1)
    end.
Proof.
  subst iterate_ attempt_. simpl. unfold bind at 1.
  destruct (attempt _ _ _ _ _ _ _ _ _) as [[[[r|]|x] st1] e1]; [| |done].
  - unfold bind, extend_existing, emit, reset_player_ban_lock. simpl.
    fold (next_round pool r st1).
    by destruct (iterate _ _ _ _ _ _ _ _ _ _ _) as [[o st3] e3].
  - unfold ret. by rewrite app_nil_r.
Qed.

Lemma iterate_shape k : forall rosters st,
  let r := iterate_ k rosters st in
  let new := accepted (events r) in
  existing_rosters (settings (final r)) = existing_rosters (settings st) ++ new
  /\ knobs (settings (final r)) = knobs (settings st)
  /\ resets (events r) = length new
  /\ seedings (events r) = []
  /\ Forall (eq (seed_truthy seed)) (hint_modes (events r))
  /\ match outcome_of r with
     | Returns rs =>
         rs = rosters ++ new
         /\ ((length new = k /\ solve_flags (events r) = replicate k true)
             \/ ((length new < k)%nat
                 /\ solve_flags (events r) = replicate (length new) true ++ [false]
                 /\ last (events r) = Some (EvSolve false (heap (world (final r))))))
     | Raises _ =>
         (length new < k)%nat
         /\ solve_flags (events r) = replicate (length new) true ++ [true]
     end.
Proof.
  induction k as [|k IH]; intros rosters st.
  - simpl. rewrite !app_nil_r. repeat split; try done. by left.
  - intros r new. subst r new. rewrite iterate_S.
    pose proof (attempt_facts st) as (Hset & _ & Hacc & Hres & Hseed & Hmodes & Hflags & Hlast).
    fold attempt_ in Hset, Hacc, Hres, Hseed, Hmodes, Hflags, Hlast.
    assert (Forall (eq (seed_truthy seed)) (hint_modes (events (attempt_ st)))) as Hm.
    { rewrite Hmodes. destruct (list_truthy bounds); by repeat constructor. }
    clear Hmodes.
    destruct (attempt_ st) as [[[[r|]|x] st1] e1];
      unfold outcome_of, final, events in *; simpl in *.
    + specialize (IH (rosters ++ [r]) (next_round pool r st1)).
      destruct (iterate_ k (rosters ++ [r]) (next_round pool r st1)) as [[o st3] e3].
      simpl in *.
      destruct IH as (IHex & IHkn & IHres & IHseed & IHmodes & IHout).
      rewrite accepted_round, resets_round, seedings_round, hint_modes_round,
        solve_flags_round.
      rewrite Hacc, Hres, Hseed, Hflags, IHex, IHkn, IHres, IHseed, Hset.
      simpl. rewrite <- app_assoc. simpl.
      repeat split; try done.
      * by apply Forall_app.
      * destruct o as [rs|y].
        -- destruct IHout as (-> & Hcases). rewrite <- app_assoc. simpl.
           split; [done|].
           destruct Hcases as [[Hn Hf]|(Hn & Hf & Hl)].
           ++ left. by rewrite Hn, Hf.
           ++ right. rewrite Hf. split; [lia|]. split; [done|].
              by apply last_round.
        -- destruct IHout as (Hn & Hf). rewrite Hf. split; [lia|done].
    + rewrite Hacc, Hres, Hseed, Hflags, Hset, !app_nil_r. simpl.
      do 5 (split; [done|]). split; [done|].
      right. split; [lia|]. split; [done|]. by apply Hlast.
    + rewrite Hacc, Hres, Hseed, Hflags, Hset, !app_nil_r. simpl.
      do 5 (split; [done|]). split; [lia|done].
Qed.

Lemma reset_heap_lookup (players : list loc) : forall (h : Heap) l,
  reset_heap players h !! l
  = (if decide (l ∈ players) then clear_ban_lock else id) <$> h !! l.
Proof.
  unfold reset_heap. induction players as [|a players IH]; intros h l.
  - destruct (decide (l ∈ [])) as [Hin|_]; [by apply elem_of_nil in Hin|].
    simpl. by destruct (h !! l).
  - simpl foldl. rewrite IH. destruct (decide (a = l)) as [->|Hne].
    + rewrite lookup_alter_eq.
      destruct (decide (l ∈ l :: players)) as [_|Hout];
        [|by destruct Hout; apply list_elem_of_here].
      destruct (h !! l); [simpl|done]. by destruct (decide (l ∈ players)).
    + rewrite lookup_alter_ne by done.
      destruct (decide (l ∈ players)) as [Hin|Hout];
        destruct (decide (l ∈ a :: players)) as [Hin'|Hout']; try done.
      * destruct Hout'. by apply list_elem_of_further.
      * apply elem_of_cons in Hin' as [->|Hin']; done.
Qed.

Lemma reset_heap_clear (h : Heap) : flags_clear pool (reset_heap pool h).
Proof.
  intros l p Hin Hp. rewrite reset_heap_lookup in Hp.
  destruct (decide (l ∈ pool)); [|done].
  destruct (h !! l) as [q|]; [|done]. by inversion Hp.
Qed.

(** The flags each round starts with: those of the entry state for the
    first round, cleared ones for every later round. *)
Lemma iterate_heaps k : forall rosters st,
  match iteration_heaps (events (iterate_ k rosters st)) with
  | [] => k = O
  | h :: later => h = heap (world st) /\ Forall (flags_clear pool) later
  end.
Proof.
  induction k as [|k IH]; intros rosters st; [done|].
  rewrite iterate_S.
  pose proof (attempt_facts st) as (_ & Hheaps & _).
  fold attempt_ in Hheaps.
  destruct (attempt_ st) as [[[[r|]|x] st1] e1];
    unfold events in *; simpl in *.
  - specialize (IH (rosters ++ [r]) (next_round pool r st1)).
    rewrite iteration_heaps_round, Hheaps. simpl. split; [done|].
    destruct (iteration_heaps _) as [|h later]; [done|].
    destruct IH as [-> Hlater]. constructor; [|done].
    apply reset_heap_clear.
  - by rewrite Hheaps.
  - by rewrite Hheaps.
Qed.

(** ** [run_multi] in closed form *)

Lemma print_diffs_eq (diffs : list (string * Z)) : forall st,
  print_diffs diffs st = (Returns tt, say (diff_line <$> diffs) st, []).
Proof.
  induction diffs as [|nd diffs IH]; intros st; simpl.
  - unfold ret. by rewrite say_nil.
  - unfold bind, print at 1. rewrite IH. unfold say. simpl.
    by rewrite <- app_assoc.
Qed.

Lemma run_multi_eq st :
  let r := iterate_ (Z.to_nat iterations) [] (entry C seed st) in
  run_multi C iterations rule_set pool ps verbose bounds seed st
  = match outcome_of r with
    | Returns rosters =>
        (Returns (rosters, reported_diffs C verbose bounds rosters (world (final r))),
         say (report C verbose bounds rosters (world (final r))) (final r),
         (if seed_truthy seed then [EvSeed seed] else []) ++ events r)
    | Raises x =>
        (Raises x, final r,
         (if seed_truthy seed then [EvSeed seed] else []) ++ events r)
    end.
Proof.
  intros r. subst r iterate_. unfold run_multi, entry, reported_diffs, report.
  destruct (seed_truthy seed); unfold when;
    unfold bind at 1; unfold random_seed, ret at 1; cbv beta iota;
    try fold (seeded C seed st);
    unfold bind at 1;
    destruct (iterate _ _ _ _ _ _ _ _ _ _ _) as [[[rosters|x] st1] e1];
    unfold outcome_of, final, events; simpl; try done;
    destruct (nonempty rosters && verbose);
    try (unfold ret; by rewrite say_nil, app_nil_r);
    unfold bind, print, get_state; simpl; rewrite print_diffs_eq;
    unfold say, ret; simpl; by rewrite !app_nil_r, <- !app_assoc.
Qed.

Lemma attempt_no_raise st x :
  solver_arity C -> outcome_of (attempt_ st) <> Raises x.
Proof.
  intros Harity. subst attempt_. unfold attempt, bind, get_state, emit. simpl.
  destruct (exposure_hints_eq st) as (dct & w & ->). simpl.
  rewrite run_eq. simpl.
  destruct (filter_pool C pool ps w) as [players w1]. simpl.
  match goal with |- context [optimizer_solve C ?a w1] =>
    pose proof (Harity a w1) as Hlen end.
  destruct (optimizer_solve C _ w1) as [[solved values] w2]. simpl in *.
  destruct solved; [|done].
  apply Nat.leb_le in Hlen; [|done]. by rewrite Hlen.
Qed.

Lemma iterate_no_raise k : forall rosters st x,
  solver_arity C -> outcome_of (iterate_ k rosters st) <> Raises x.
Proof.
  induction k as [|k IH]; intros rosters st x Harity; [done|].
  rewrite iterate_S. pose proof (attempt_no_raise st) as Hno.
  destruct (attempt_ st) as [[[[r|]|y] st1] e1]; simpl.
  - by apply IH.
  - done.
  - by destruct (Hno y Harity).
Qed.

Lemma solve_flags_seed evs :
  solve_flags ((if seed_truthy seed then [EvSeed seed] else []) ++ evs)
  = solve_flags evs.
Proof. by destruct (seed_truthy seed). Qed.

Lemma accepted_seed evs :
  accepted ((if seed_truthy seed then [EvSeed seed] else []) ++ evs) = accepted evs.
Proof. by destruct (seed_truthy seed). Qed.

Lemma resets_seed evs :
  resets ((if seed_truthy seed then [EvSeed seed] else []) ++ evs) = resets evs.
Proof. by destruct (seed_truthy seed). Qed.

Lemma iteration_heaps_seed evs :
  iteration_heaps ((if seed_truthy seed then [EvSeed seed] else []) ++ evs)
  = iteration_heaps evs.
Proof. by destruct (seed_truthy seed). Qed.

Lemma hint_modes_seed evs :
  hint_modes ((if seed_truthy seed then [EvSeed seed] else []) ++ evs)
  = hint_modes evs.
Proof. by destruct (seed_truthy seed). Qed.

(** What [run_multi] adds to the loop, read off the closed form. *)
Lemma run_multi_parts st :
  let r := run_multi C iterations rule_set pool ps verbose bounds seed st in
  let l := iterate_ (Z.to_nat iterations) [] (entry C seed st) in
  events r = (if seed_truthy seed then [EvSeed seed] else []) ++ events l
  /\ world (final r) = world (final l)
  /\ settings (final r) = settings (final l)
  /\ outcome_of r
     = match outcome_of l with
       | Returns rosters =>
           Returns (rosters, reported_diffs C verbose bounds rosters (world (final l)))
       | Raises x => Raises x
       end.
Proof.
  intros r l. subst r l. rewrite run_multi_eq.
  by destruct (outcome_of (iterate_ _ _ _)).
Qed.

Lemma entry_heap st : heap (world (entry C seed st)) = heap (world st).
Proof. unfold entry. by destruct (seed_truthy seed). Qed.

Lemma entry_settings st : settings (entry C seed st) = settings st.
Proof. unfold entry. by destruct (seed_truthy seed). Qed.

(** A failed solve ends the loop. *)
Lemma iterate_failure k rosters st j :
  let l := iterate_ k rosters st in
  solve_flags (events l) !! j = Some false ->
  outcome_of l = Returns (rosters ++ accepted (events l))
  /\ length (accepted (events l)) = j
  /\ (j < k)%nat
  /\ solve_flags (events l) = replicate j true ++ [false]
  /\ last (events l) = Some (EvSolve false (heap (world (final l)))).
Proof.
  intros l Hj. subst l.
  pose proof (iterate_shape k rosters st) as (_ & _ & _ & _ & _ & Hout).
  destruct (outcome_of (iterate_ _ _ _)) as [rs|x].
  - destruct Hout as (-> & [[Hn Hf]|(Hn & Hf & Hl)]).
    + rewrite Hf in Hj. apply lookup_replicate in Hj as [? _]. done.
    + rewrite Hf in Hj.
      assert (j = length (accepted (events (iterate_ k rosters st)))) as Hjn.
      { apply lookup_app_Some in Hj as [Hj|[Hge Hj]].
        - apply lookup_replicate in Hj as [? _]. done.
        - rewrite length_replicate in Hge, Hj.
          apply list_lookup_singleton_Some in Hj as [Hj _]. lia. }
      rewrite <- Hjn in *. done.
  - destruct Hout as (Hn & Hf). rewrite Hf in Hj.
    apply lookup_app_Some in Hj as [Hj|[_ Hj]].
    + apply lookup_replicate in Hj as [? _]. done.
    + apply list_lookup_singleton_Some in Hj as [_ ?]. done.
Qed.

(** ** The claims on [run_multi] *)

(** C1, as amended: when every feasible answer of the solver has a value
    for each player, [run_multi] returns, and what it returns is the list
    of the rosters accepted during the run, in order (all N of them after
    N successful solves, or the ones accepted before the first failed
    solve), together with a deviation map: the exposure deviation of
    exactly that list when it is not empty and [verbose] is set, the
    empty map otherwise. *)
Theorem run_multi_returns_rosters_and_diffs st :
  solver_arity C ->
  let r := run_multi C iterations rule_set pool ps verbose bounds seed st in
  let rosters := accepted (events r) in
  outcome_of r
  = Returns (rosters,
             if nonempty rosters && verbose
             then check_exposure C rosters bounds (world (final r))
             else [])
  /\ ((length rosters = Z.to_nat iterations
       /\ solve_flags (events r) = replicate (Z.to_nat iterations) true)
      \/ ((length rosters < Z.to_nat iterations)%nat
          /\ solve_flags (events r) = replicate (length rosters) true ++ [false])).
Proof.
  intros Harity r rosters. subst rosters r.
  destruct (run_multi_parts st) as (-> & -> & _ & ->).
  rewrite accepted_seed, solve_flags_seed.
  pose proof (iterate_no_raise (Z.to_nat iterations) [] (entry C seed st)) as Hno.
  pose proof (iterate_shape (Z.to_nat iterations) [] (entry C seed st))
    as (_ & _ & _ & _ & _ & Hout).
  destruct (outcome_of (iterate_ _ _ _)) as [rosters|x];
    [|by destruct (Hno x Harity)].
  destruct Hout as (-> & Hcases). simpl. split; [done|].
  destruct Hcases as [[Hn Hf]|(Hn & Hf & _)]; [by left|by right].
Qed.

(** C2: if the solve of round j+1 fails, it is the last solve of the
    run: [run_multi] returns, and what it returns are the j rosters
    accepted before, fewer than the N asked for. *)
Theorem run_multi_halts_at_first_failure st j :
  let r := run_multi C iterations rule_set pool ps verbose bounds seed st in
  solve_flags (events r) !! j = Some false ->
  length (solve_flags (events r)) = S j
  /\ last (events r) = Some (EvSolve false (heap (world (final r))))
  /\ exists rosters diffs,
       outcome_of r = Returns (rosters, diffs)
       /\ rosters = accepted (events r)
       /\ length rosters = j
       /\ (j < Z.to_nat iterations)%nat.
Proof.
  intros r. subst r.
  destruct (run_multi_parts st) as (-> & -> & _ & ->).
  rewrite solve_flags_seed, accepted_seed. intros Hj.
  destruct (iterate_failure _ _ _ _ Hj) as (-> & Hn & Hlt & -> & Hl).
  rewrite length_app, length_replicate, last_app, Hl. simpl.
  split; [lia|]. split; [done|]. by eexists _, _.
Qed.

(** C4, as amended: the first round starts with the flags the pool came
    in with; every later round starts with the ban and lock flags of
    all pool players false. *)
Theorem run_multi_later_rounds_start_clear st :
  let r := run_multi C iterations rule_set pool ps verbose bounds seed st in
  match iteration_heaps (events r) with
  | [] => Z.to_nat iterations = O
  | first :: later =>
      first = heap (world st) /\ Forall (flags_clear pool) later
  end.
Proof.
  intros r. subst r.
  destruct (run_multi_parts st) as (-> & _).
  rewrite iteration_heaps_seed.
  pose proof (iterate_heaps (Z.to_nat iterations) [] (entry C seed st)) as H.
  destruct (iteration_heaps _); [done|]. by rewrite entry_heap in H.
Qed.

(** With a true seed the state of the generator on entry is overwritten
    before anything reads it. *)
Lemma run_multi_seeded_same st1 st2 :
  seed_truthy seed = true ->
  same_but_rng st1 st2 ->
  run_multi C iterations rule_set pool ps verbose bounds seed st1
  = run_multi C iterations rule_set pool ps verbose bounds seed st2.
Proof.
  intros Hseed (Hheap & Hsettings & Hout). rewrite !run_multi_eq.
  unfold entry. rewrite Hseed. unfold seeded.
  by rewrite Hheap, Hsettings, Hout.
Qed.

(** C6, as amended: [run] leaves the settings object as it is, and
    [run_multi] appends every accepted roster to its
    [existing_rosters], in order: on return the list holds what it
    held on entry followed by the returned rosters. *)
Theorem run_multi_extends_existing_rosters st :
  let r := run_multi C iterations rule_set pool ps verbose bounds seed st in
  (forall os dct gen,
      settings (final (run C rule_set pool os ps dct gen verbose st)) = settings st)
  /\ existing_rosters (settings (final r))
     = existing_rosters (settings st) ++ accepted (events r)
  /\ match outcome_of r with
     | Returns (rosters, _) =>
         existing_rosters (settings (final r))
         = existing_rosters (settings st) ++ rosters
     | Raises _ => True
     end.
Proof.
  intros r. subst r. split.
  { intros os dct gen. rewrite run_eq.
    destruct (fst (fst _)); [destruct (_ <=? _)%nat|]; done. }
  destruct (run_multi_parts st) as (-> & _ & -> & ->).
  rewrite accepted_seed.
  pose proof (iterate_shape (Z.to_nat iterations) [] (entry C seed st))
    as (Hex & _ & _ & _ & _ & Hout).
  rewrite entry_settings in Hex. split; [done|].
  destruct (outcome_of (iterate_ _ _ _)) as [rosters|x]; [|done].
  by destruct Hout as (-> & _).
Qed.

(** C10: if some solve of the run fails, the run ends with it: the
    final player flags are the ones that solve left, with no reset
    after it; the resets made are as many as the rosters accepted. *)
Theorem run_multi_failure_skips_reset st :
  let r := run_multi C iterations rule_set pool ps verbose bounds seed st in
  false ∈ solve_flags (events r) ->
  last (events r) = Some (EvSolve false (heap (world (final r))))
  /\ resets (events r) = length (accepted (events r))
  /\ exists rosters diffs,
       outcome_of r = Returns (rosters, diffs)
       /\ resets (events r) = length rosters.
Proof.
  intros r. subst r.
  destruct (run_multi_parts st) as (-> & -> & _ & ->).
  rewrite solve_flags_seed, accepted_seed, resets_seed.
  intros [j Hj]%list_elem_of_lookup.
  destruct (iterate_failure _ _ _ _ Hj) as (-> & Hn & Hlt & _ & Hl).
  pose proof (iterate_shape (Z.to_nat iterations) [] (entry C seed st))
    as (_ & _ & Hres & _).
  rewrite last_app, Hl. split; [done|]. split; [done|].
  by eexists _, _.
Qed.

End Rounds.

(** ** A false seed *)

Section Seedless.
Variables (iterations : Z) (rule_set : RuleSet) (pool : list loc)
          (ps : option (PlayerPoolSettings PoolFilters)) (verbose : bool)
          (bounds : option (list Bound)) (seed : Seed).
Hypothesis Hfalsy : seed_truthy seed = false.
Hypothesis Hignore : hints_ignore_seed C seed.

Lemma attempt_seedless st :
  fst (attempt C iterations rule_set pool ps verbose bounds seed st)
  = fst (attempt C iterations rule_set pool ps verbose bounds SeedNone st).
Proof.
  unfold attempt, bind, get_state, emit, exposure_hints. simpl.
  rewrite Hfalsy. simpl.
  destruct (list_truthy bounds); simpl.
  - unfold bind, get_state, emit, call. simpl. rewrite Hignore.
    destruct (get_exposure_args C _ _ _ _ _ _) as [dct w]. simpl.
    by destruct (run _ _ _ _ _ _ _ _ _) as [[[o|x] st2] e2].
  - by destruct (run _ _ _ _ _ _ _ _ _) as [[[o|x] st2] e2].
Qed.

Lemma iterate_seedless k : forall rosters st,
  fst (iterate C iterations rule_set pool ps verbose bounds seed k rosters st)
  = fst (iterate C iterations rule_set pool ps verbose bounds SeedNone k rosters st).
Proof.
  induction k as [|k IH]; intros rosters st; [done|].
  rewrite !iterate_S. pose proof (attempt_seedless st) as Hsame.
  destruct (attempt _ _ _ _ _ _ _ seed st) as [[o1 s1] e1].
  destruct (attempt _ _ _ _ _ _ _ SeedNone st) as [[o2 s2] e2].
  simpl in Hsame. inversion Hsame; subst.
  destruct o2 as [[r|]|x]; simpl; [|done|done].
  unfold outcome_of, final. specialize (IH (rosters ++ [r]) (next_round pool r s2)).
  destruct (iterate _ _ _ _ _ _ _ seed _ _ _) as [[o3 s3] e3].
  destruct (iterate _ _ _ _ _ _ _ SeedNone _ _ _) as [[o4 s4] e4].
  simpl in *. by inversion IH.
Qed.

End Seedless.

(** ** Two runs from states that differ in the generator only *)

Section Replay.
Variables (iterations : Z) (rule_set : RuleSet) (pool : list loc)
          (ps : option (PlayerPoolSettings PoolFilters)) (verbose : bool)
          (bounds : option (list Bound)) (seed : Seed).
Hypothesis Hfalsy : seed_truthy seed = false.
Hypothesis Hunused : generator_unused C.

Lemma run_replay os dct gen st1 st2 :
  same_but_rng st1 st2 ->
  outcome_of (run C rule_set pool os ps dct gen verbose st1)
  = outcome_of (run C rule_set pool os ps dct gen verbose st2)
  /\ events (run C rule_set pool os ps dct gen verbose st1)
     = events (run C rule_set pool os ps dct gen verbose st2)
  /\ same_but_rng (final (run C rule_set pool os ps dct gen verbose st1))
                  (final (run C rule_set pool os ps dct gen verbose st2)).
Proof.
  intros (Hh & Hs & Ho). destruct Hunused as (Hfp & Hopt & _ & _).
  rewrite !run_eq. cbv zeta.
  destruct (Hfp pool ps (world st1) (world st2) Hh) as [Hp Hph].
  destruct (filter_pool C pool ps (world st1)) as [p1 w1].
  destruct (filter_pool C pool ps (world st2)) as [p2 w2].
  cbn [fst snd] in *. subst p2.
  match goal with |- context [optimizer_solve C ?a w1] =>
    destruct (Hopt a w1 w2 Hph) as [Hv Hvh] end.
  destruct (optimizer_solve C _ w1) as [[b1 v1] u1].
  destruct (optimizer_solve C _ w2) as [[b2 v2] u2].
  cbn [fst snd] in *. inversion Hv; subst b2 v2.
  destruct b1; [destruct (_ <=? _)%nat|];
    unfold outcome_of, events, final, same_but_rng, say, with_world;
    cbn [fst snd world heap settings stdout]; by rewrite Hvh, Hs, Ho.
Qed.

Lemma exposure_hints_replay st1 st2 :
  same_but_rng st1 st2 ->
  outcome_of (exposure_hints C iterations bounds seed st1)
  = outcome_of (exposure_hints C iterations bounds seed st2)
  /\ events (exposure_hints C iterations bounds seed st1)
     = events (exposure_hints C iterations bounds seed st2)
  /\ same_but_rng (final (exposure_hints C iterations bounds seed st1))
                  (final (exposure_hints C iterations bounds seed st2)).
Proof.
  intros (Hh & Hs & Ho). destruct Hunused as (_ & _ & Hhints & _).
  unfold exposure_hints. rewrite Hfalsy.
  destruct (list_truthy bounds); [|done].
  unfold bind, get_state, emit, call. simpl. rewrite Hs.
  destruct (Hhints (existing_rosters (settings st2)) (or_empty bounds) iterations
              seed (world st1) (world st2) Hh) as [Hd Hdh].
  destruct (get_exposure_args C _ _ _ _ _ (world st1)) as [d1 w1].
  destruct (get_exposure_args C _ _ _ _ _ (world st2)) as [d2 w2].
  cbn [fst snd] in *. subst d2.
  unfold outcome_of, events, final, same_but_rng, ret.
  cbn [fst snd world heap settings stdout]. by rewrite Ho.
Qed.

Lemma attempt_eq st :
  attempt C iterations rule_set pool ps verbose bounds seed st
  = match exposure_hints C iterations bounds seed st with
    | (Returns dct, st1, e1) =>
        let r := run C rule_set pool (Some (settings st1)) ps dct None verbose st1 in
        (outcome_of r, final r, EvIteration (heap (world st)) :: e1 ++ events r)
    | (Raises x, st1, e1) => (Raises x, st1, EvIteration (heap (world st)) :: e1)
    end.
Proof.
  unfold attempt, bind, get_state, emit. cbn [fst snd].
  destruct (exposure_hints C iterations bounds seed st) as [[[dct|x] st1] e1];
    [|done].
  unfold outcome_of, final, events.
  by destruct (run C rule_set pool _ ps dct None verbose st1) as [[o st2] e2].
Qed.

Lemma attempt_replay st1 st2 :
  same_but_rng st1 st2 ->
  outcome_of (attempt C iterations rule_set pool ps verbose bounds seed st1)
  = outcome_of (attempt C iterations rule_set pool ps verbose bounds seed st2)
  /\ events (attempt C iterations rule_set pool ps verbose bounds seed st1)
     = events (attempt C iterations rule_set pool ps verbose bounds seed st2)
  /\ same_but_rng
       (final (attempt C iterations rule_set pool ps verbose bounds seed st1))
       (final (attempt C iterations rule_set pool ps verbose bounds seed st2)).
Proof.
  intros Hsame. rewrite !attempt_eq.
  destruct (exposure_hints_replay st1 st2 Hsame) as (Ho & He & Hf).
  destruct Hsame as (Hh & _).
  destruct (exposure_hints C iterations bounds seed st1) as [[o1 s1] e1].
  destruct (exposure_hints C iterations bounds seed st2) as [[o2 s2] e2].
  unfold outcome_of, events, final in Ho, He, Hf. cbn [fst snd] in *. subst o2 e2.
  destruct o1 as [dct|x].
  - pose proof Hf as (_ & Hs & _). rewrite Hs.
    destruct (run_replay (Some (settings s2)) dct None s1 s2 Hf) as (Hro & Hre & Hrf).
    unfold outcome_of, events, final in *. cbn [fst snd]. by rewrite Hro, Hre, Hh.
  - unfold outcome_of, events, final. cbn [fst snd]. by rewrite Hh.
Qed.

Lemma iterate_replay k : forall rosters st1 st2,
  same_but_rng st1 st2 ->
  outcome_of (iterate C iterations rule_set pool ps verbose bounds seed k rosters st1)
  = outcome_of (iterate C iterations rule_set pool ps verbose bounds seed k rosters st2)
  /\ events (iterate C iterations rule_set pool ps verbose bounds seed k rosters st1)
     = events (iterate C iterations rule_set pool ps verbose bounds seed k rosters st2)
  /\ same_but_rng
       (final (iterate C iterations rule_set pool ps verbose bounds seed k rosters st1))
       (final (iterate C iterations rule_set pool ps verbose bounds seed k rosters st2)).
Proof.
  induction k as [|k IH]; intros rosters st1 st2 Hsame; [done|].
  rewrite !iterate_S.
  destruct (attempt_replay st1 st2 Hsame) as (Ho & He & Hf).
  destruct (attempt _ _ _ _ _ _ _ _ st1) as [[o1 s1] e1].
  destruct (attempt _ _ _ _ _ _ _ _ st2) as [[o2 s2] e2].
  unfold outcome_of, events, final in Ho, He, Hf. cbn [fst snd] in *. subst o2 e2.
  destruct o1 as [[r|]|x]; [|done|done].
  assert (same_but_rng (next_round pool r s1) (next_round pool r s2)) as Hnext.
  { destruct Hf as (Hh & Hs & Hso). unfold same_but_rng, next_round.
    cbn [world heap settings stdout]. by rewrite Hh, Hs, Hso. }
  destruct (IH (rosters ++ [r]) _ _ Hnext) as (IHo & IHe & IHf).
  unfold outcome_of, events, final in *. cbn [fst snd]. by rewrite IHo, IHe.
Qed.

Lemma run_multi_replay st1 st2 :
  same_but_rng st1 st2 ->
  outcome_of (run_multi C iterations rule_set pool ps verbose bounds seed st1)
  = outcome_of (run_multi C iterations rule_set pool ps verbose bounds seed st2)
  /\ events (run_multi C iterations rule_set pool ps verbose bounds seed st1)
     = events (run_multi C iterations rule_set pool ps verbose bounds seed st2)
  /\ same_but_rng
       (final (run_multi C iterations rule_set pool ps verbose bounds seed st1))
       (final (run_multi C iterations rule_set pool ps verbose bounds seed st2)).
Proof.
  intros Hsame. rewrite !run_multi_eq. cbv zeta.
  unfold entry. rewrite Hfalsy.
  destruct (iterate_replay (Z.to_nat iterations) [] st1 st2 Hsame) as (Ho & He & Hf).
  destruct Hunused as (_ & _ & _ & Hcheck).
  destruct (iterate _ _ _ _ _ _ _ _ _ _ st1) as [[o1 s1] e1].
  destruct (iterate _ _ _ _ _ _ _ _ _ _ st2) as [[o2 s2] e2].
  unfold outcome_of, events, final in Ho, He, Hf. cbn [fst snd] in *. subst o2 e2.
  destruct Hf as (Hh & Hs & Hso).
  destruct o1 as [rosters|x];
    unfold outcome_of, events, final, same_but_rng, say, report, reported_diffs;
    cbn [fst snd world heap settings stdout];
    by rewrite ?(Hcheck rosters bounds (world s1) (world s2) Hh), ?Hso.
Qed.

End Replay.

(** C5: two runs of [run_multi] with the same seed on inputs that agree on
    everything but the state of the global generator return the same
    rosters (and the same deviations), make the same solves and end in
    states that again differ in the generator at most.  For a seed that
    is true in Python's sense this needs nothing of the collaborators,
    the generator being seeded first; for a seed that is not [None] but
    false, such as 0, no seeding takes place and it holds when the
    collaborators leave the generator alone unless randomized exposure
    is asked for. *)
Theorem run_multi_same_seed_same_rosters
    iterations rule_set pool ps verbose bounds seed st1 st2 :
  seed <> SeedNone ->
  seed_truthy seed = true \/ generator_unused C ->
  same_but_rng st1 st2 ->
  let r1 := run_multi C iterations rule_set pool ps verbose bounds seed st1 in
  let r2 := run_multi C iterations rule_set pool ps verbose bounds seed st2 in
  returned_rosters r1 = returned_rosters r2
  /\ outcome_of r1 = outcome_of r2
  /\ events r1 = events r2
  /\ same_but_rng (final r1) (final r2).
Proof.
  intros _ Hcase Hsame r1 r2. subst r1 r2. unfold returned_rosters.
  destruct (seed_truthy seed) eqn:Hseed.
  - rewrite (run_multi_seeded_same iterations rule_set pool ps verbose bounds seed
               st1 st2 Hseed Hsame).
    repeat split; reflexivity.
  - destruct Hcase as [?|Hunused]; [done|].
    destruct (run_multi_replay iterations rule_set pool ps verbose bounds seed
                Hseed Hunused st1 st2 Hsame) as (Ho & He & Hf).
    by rewrite Ho.
Qed.

(** C9: with a seed that is false in Python's sense ([0], the empty
    string, [None]) the generator is never seeded and every call of the
    exposure helper has [use_random] false; if the helper disregards the
    seed it is handed when [use_random] is false, the run returns the
    same result and leaves the same state as a run without seed. *)
Theorem run_multi_false_seed_is_no_seed
    iterations rule_set pool ps verbose bounds seed st :
  seed_truthy seed = false ->
  let r := run_multi C iterations rule_set pool ps verbose bounds seed st in
  seedings (events r) = []
  /\ Forall (eq false) (hint_modes (events r))
  /\ (hints_ignore_seed C seed ->
      fst r = fst (run_multi C iterations rule_set pool ps verbose bounds SeedNone st)).
Proof.
  intros Hfalsy r. subst r.
  pose proof (iterate_shape iterations rule_set pool ps verbose bounds seed
                (Z.to_nat iterations) [] (entry C seed st))
    as (_ & _ & _ & Hseed & Hmodes & _).
  destruct (run_multi_parts iterations rule_set pool ps verbose bounds seed st)
    as (Hev & _).
  rewrite Hev, hint_modes_seed. rewrite Hfalsy in *. simpl.
  split; [done|]. split; [done|].
  intros Hignore. rewrite !run_multi_eq. unfold entry. rewrite Hfalsy. simpl.
  pose proof (iterate_seedless iterations rule_set pool ps verbose bounds seed
                Hfalsy Hignore (Z.to_nat iterations) [] st) as Hsame.
  unfold outcome_of, final. rewrite Hsame.
  by destruct (fst (fst (iterate _ _ _ _ _ _ _ SeedNone _ _ _))).
Qed.

End Facts.

(** * The collaborators of the specification meet the assumptions *)
Module SpecFacts.
Import Spec Scenario.

Lemma assignments_length n : forall v, v ∈ assignments n -> length v = n.
Proof.
  induction n as [|n IH]; intros v Hv; simpl in Hv.
  - apply list_elem_of_singleton in Hv. by subst.
  - apply elem_of_app in Hv as [Hv|Hv];
      apply list_elem_of_fmap in Hv as (u & -> & Hu); simpl; by rewrite (IH u).
Qed.

Lemma assignments_binary n : forall v,
  v ∈ assignments n -> Forall (fun x => x = 0 \/ x = 1) v.
Proof.
  induction n as [|n IH]; intros v Hv; simpl in Hv.
  - apply list_elem_of_singleton in Hv. by subst.
  - apply elem_of_app in Hv as [Hv|Hv];
      apply list_elem_of_fmap in Hv as (u & -> & Hu); constructor; auto.
Qed.

Lemma assignments_complete : forall v,
  Forall (fun x => x = 0 \/ x = 1) v -> v ∈ assignments (length v).
Proof.
  induction v as [|x v IH]; intros Hbin; simpl.
  - apply list_elem_of_singleton. done.
  - inversion Hbin as [|? ? [->| ->] Hrest]; subst; apply elem_of_app.
    + left. apply list_elem_of_fmap. eauto.
    + right. apply list_elem_of_fmap. eauto.
Qed.

Lemma best_of_in ps : forall others first,
  best_of ps first others ∈ first :: others.
Proof.
  unfold best_of. induction others as [|v others IH]; intros first; simpl.
  - apply list_elem_of_here.
  - destruct (weighted proj ps first <? weighted proj ps v).
    + apply list_elem_of_further, IH.
    + specialize (IH first). apply elem_of_cons in IH as [->|Hin].
      * apply list_elem_of_here.
      * by do 2 apply list_elem_of_further.
Qed.

(** What the search answers: the overlay is written, and the answer is
    feasible exactly when some assignment meets the formulation; a
    feasible answer is one such assignment. *)
Lemma optimizer_solve_spec args w :
  let h := overlay (oa_exposure_dct args) (oa_players args) (heap w) in
  let ps := player_at h <$> oa_players args in
  let sw := optimizer_solve args w in
  snd sw = {| heap := h; rng := rng w |}
  /\ (fst (fst sw) = true
      <-> feasible (oa_rule_set args) (oa_lineup_constraints args) ps)
  /\ (fst (fst sw) = true ->
      length (snd (fst sw)) = length (oa_players args)
      /\ Forall (fun x => x = 0 \/ x = 1) (snd (fst sw))
      /\ satisfies (oa_rule_set args) (oa_lineup_constraints args) ps (snd (fst sw)) = true).
Proof.
  intros h ps sw. subst sw. unfold optimizer_solve. fold h. fold ps.
  destruct (filter _ (assignments (length ps))) as [|first others] eqn:Hf; simpl.
  - split; [done|]. split; [|done]. split; [done|].
    intros (vals & Hlen & Hbin & Hsat). exfalso.
    assert (vals ∈ filter (fun v => satisfies (oa_rule_set args)
              (oa_lineup_constraints args) ps v = true) (assignments (length ps))) as Hin.
    { apply list_elem_of_filter. split; [done|].
      rewrite <- Hlen. by apply assignments_complete. }
    rewrite Hf in Hin. by apply elem_of_nil in Hin.
  - assert (best_of ps first others ∈ filter (fun v => satisfies (oa_rule_set args)
              (oa_lineup_constraints args) ps v = true) (assignments (length ps))) as Hin.
    { rewrite Hf. apply best_of_in. }
    apply list_elem_of_filter in Hin as [Hsat Hin].
    pose proof (assignments_length _ _ Hin) as Hlen.
    pose proof (assignments_binary _ _ Hin) as Hbin.
    subst ps. rewrite length_fmap in Hlen.
    split; [done|]. split; [|done]. split; [|done].
    intros _. exists (best_of (player_at h <$> oa_players args) first others).
    by rewrite length_fmap.
Qed.

Lemma spec_solver_arity : solver_arity collab.
Proof.
  intros args w Hsolved. simpl in *.
  destruct (optimizer_solve_spec args w) as (_ & _ & Hok).
  destruct (Hok Hsolved) as (Hlen & _). lia.
Qed.

Lemma spec_hints_ignore_seed s : hints_ignore_seed collab s.
Proof. intros existing bs n w. reflexivity. Qed.

(** None of these collaborators reads the generator unless [use_random]
    is set. *)
Lemma spec_generator_unused : generator_unused collab.
Proof.
  split; [|split; [|split]].
  - intros pool ps w1 w2 Hh. simpl. unfold Spec.filter_pool.
    destruct ps as [ps|]; [|done]. simpl. by rewrite Hh.
  - intros args w1 w2 Hh. simpl. unfold Spec.optimizer_solve. rewrite Hh.
    by destruct (filter _ (assignments _)).
  - intros existing bs n s w1 w2 Hh. simpl. unfold Spec.get_exposure_args.
    rewrite Hh. simpl. by destruct (filter _ bs).
  - intros rosters b w1 w2 Hh. simpl. unfold Spec.check_exposure. by rewrite Hh.
Qed.

Lemma foldl_ban l : forall c,
  lc_banned (foldl constraints_ban c l) = lc_banned c ++ l
  /\ lc_locked (foldl constraints_ban c l) = lc_locked c.
Proof.
  induction l as [|n l IH]; intros c; simpl.
  - by rewrite app_nil_r.
  - destruct (IH (constraints_ban c n)) as [-> ->]. simpl.
    by rewrite <- app_assoc.
Qed.

Lemma foldl_lock l : forall c,
  lc_locked (foldl constraints_lock c l) = lc_locked c ++ l
  /\ lc_banned (foldl constraints_lock c l) = lc_banned c.
Proof.
  induction l as [|n l IH]; intros c; simpl.
  - by rewrite app_nil_r.
  - destruct (IH (constraints_lock c n)) as [-> ->]. simpl.
    by rewrite <- app_assoc.
Qed.

(** Lines 20-28 hand every banned and every locked name to the
    constraints. *)
Lemma build_constraints_names {F} (ps : PlayerPoolSettings F) :
  lc_banned (build_constraints (Some ps)) = or_empty (banned ps)
  /\ lc_locked (build_constraints (Some ps)) = or_empty (locked ps).
Proof.
  assert (build_constraints (Some ps)
          = foldl constraints_lock
              (foldl constraints_ban new_constraints (or_empty (banned ps)))
              (or_empty (locked ps))) as ->.
  { unfold build_constraints.
    by destruct (banned ps) as [[|b bs]|], (locked ps) as [[|k ks]|]. }
  destruct (foldl_lock (or_empty (locked ps))
              (foldl constraints_ban new_constraints (or_empty (banned ps))))
    as [-> ->].
  by destruct (foldl_ban (or_empty (banned ps)) new_constraints) as [-> ->].
Qed.

Lemma forced_ok_lookup c ps vals i p v :
  forced_ok c ps vals = true ->
  ps !! i = Some p -> vals !! i = Some v ->
  (forced_in c p = true -> v = 1) /\ (forced_out c p = true -> v = 0).
Proof.
  unfold forced_ok. intros Hall Hp Hv.
  rewrite forallb_forall in Hall. specialize (Hall (p, v)).
  assert (In (p, v) (zip ps vals)) as Hin.
  { apply list_elem_of_In, list_elem_of_lookup. exists i.
    apply lookup_zip_with_Some. eauto. }
  apply Hall in Hin. simpl in Hin.
  apply andb_true_iff in Hin as [Hin Hout].
  split; intros Hforced; rewrite Hforced in *; simpl in *; lia.
Qed.

Lemma overlay_name dct players : forall (h : Heap) l,
  name (player_at (overlay dct players h) l) = name (player_at h l).
Proof.
  destruct dct as [d|]; [|done]. simpl.
  induction players as [|a players IH]; intros h l; simpl; [done|].
  rewrite IH. unfold player_at.
  destruct (decide (a = l)) as [->|Hne].
  - rewrite lookup_alter_eq. by destruct (h !! l).
  - by rewrite lookup_alter_ne.
Qed.

(** C8: under the Optimizer of the specification, [run] with a roster
    that starts empty returns a roster exactly when the formulation is
    feasible; no player carrying a banned name is in that roster, and
    every player of the list carrying a locked name is. *)
Theorem run_honours_ban_and_lock rule_set pool os ps dct gen verbose st n :
  let players := run_players collab pool (Some ps) st in
  let h := overlay dct players (heap (world st)) in
  let r := run collab rule_set pool os (Some ps) dct gen verbose st in
  r_players (initial_roster collab rule_set gen) = [] ->
  (feasible rule_set (build_constraints (Some ps)) (player_at h <$> players)
   <-> exists roster, outcome_of r = Returns (Some roster))
  /\ forall roster,
       outcome_of r = Returns (Some roster) ->
       (n ∈ or_empty (banned ps) ->
        forall l, l ∈ r_players roster -> name (player_at (heap (world st)) l) <> n)
       /\ (n ∈ or_empty (locked ps) ->
           forall l, l ∈ players -> name (player_at (heap (world st)) l) = n ->
                     l ∈ r_players roster).
Proof.
  intros players h r Hfresh. subst r h. rewrite run_eq.
  unfold run_players in players.
  repeat match goal with
         | |- context [fst ?fp] =>
             lazymatch type of fp with
             | (list nat * _)%type => change fp with (players, world st)
             end
         end.
  cbn [fst snd].
  set (args := {| oa_players := players; oa_rule_set := rule_set; oa_settings := os;
                  oa_lineup_constraints := build_constraints (Some ps);
                  oa_exposure_dct := dct |}).
  repeat match goal with
         | |- context [?f args (world st)] =>
             progress change (f args (world st))
               with (Spec.optimizer_solve args (world st))
         end.
  destruct (optimizer_solve_spec args (world st)) as (_ & Hfeas & Hok).
  cbn [oa_players oa_rule_set oa_lineup_constraints oa_exposure_dct args] in Hfeas, Hok.
  destruct (Spec.optimizer_solve args (world st)) as [[solved values] w2].
  cbn [fst snd] in *. unfold outcome_of.
  destruct solved.
  - destruct (Hok eq_refl) as (Hlen & Hbin & Hsat).
    assert ((length players <=? length values)%nat = true) as ->
      by (apply Nat.leb_le; lia).
    cbn [fst snd]. split.
    { split; [eauto|]. intros _. by apply Hfeas. }
    intros roster Hr. inversion Hr; subst roster. cbn [r_players].
    rewrite Hfresh, app_nil_l.
    apply andb_true_iff in Hsat as [_ Hforced].
    destruct (build_constraints_names ps) as [Hb Hl].
    split.
    + intros Hn l Hin Hname.
      apply picks_elem in Hin as (i & Hp & Hv).
      destruct (forced_ok_lookup _ _ _ i
                  (player_at (overlay dct players (heap (world st))) l) 1 Hforced)
        as [_ Hout]; [by rewrite list_lookup_fmap, Hp|done|].
      assert (1 = 0) as Habs; [|done]. apply Hout.
      unfold forced_out. rewrite Hb, overlay_name, Hname.
      unfold in_names. rewrite bool_decide_eq_true_2 by done.
      by rewrite orb_true_r.
    + intros Hn l Hin Hname.
      apply list_elem_of_lookup in Hin as [i Hp].
      destruct (lookup_lt_is_Some_2 values i) as [v Hv].
      { rewrite Hlen. by apply lookup_lt_Some in Hp. }
      destruct (forced_ok_lookup _ _ _ i
                  (player_at (overlay dct players (heap (world st))) l) v Hforced)
        as [Hin' _]; [by rewrite list_lookup_fmap, Hp|done|].
      apply picks_elem. exists i. split; [done|].
      rewrite Hv. f_equal. apply Hin'.
      unfold forced_in. rewrite Hl, overlay_name, Hname.
      unfold in_names. rewrite bool_decide_eq_true_2 by done.
      by rewrite orb_true_r.
  - cbn [fst snd]. split; [|done]. split.
    + intros Hf. apply Hfeas in Hf. done.
    + by intros [roster ?].
Qed.

End SpecFacts.

(** * Concrete executions *)
Module Runs.
Import Scenario.

(** C1 fails as stated: without [verbose] the run returns an accepted
    roster with an empty deviation map, although the exposure deviation
    of that roster is not empty. *)
Lemma quiet_run_returns_empty_diffs :
  returned_rosters quiet_run = [roster_of [0; 1]%nat]
  /\ returned_diffs quiet_run = []
  /\ check_exposure Spec.collab (returned_rosters quiet_run)
       (Some b_twice) (world (final quiet_run)) = [("b", -1)]
  /\ returned_diffs quiet_run
     <> check_exposure Spec.collab (returned_rosters quiet_run)
          (Some b_twice) (world (final quiet_run)).
Proof. vm_compute. done. Qed.

(** C4 fails as stated: the first round starts with "b" still banned,
    and the ban decides that round: "a" is picked, "b" only in the
    second round. *)
Lemma first_round_keeps_entry_flags :
  ~ Forall (flags_clear [0; 1]%nat) (iteration_heaps (events prebanned_run))
  /\ returned_rosters prebanned_run = [roster_of [0%nat]; roster_of [1%nat]].
Proof.
  split; [|by vm_compute].
  intros Hall.
  assert (iteration_heaps (events prebanned_run) !! 0%nat
          = Some (heap_of pair_b_banned)) as Hfirst by (by vm_compute).
  pose proof (Forall_lookup_1 _ _ _ _ Hall Hfirst) as Hclear.
  destruct (Hclear 1%nat (mk "b" 20 20 true false)) as [Hban _].
  - apply list_elem_of_further, list_elem_of_here.
  - by vm_compute.
  - done.
Qed.

(** C6 fails as stated: the settings came in with no roster and leave
    with the accepted one. *)
Lemma run_multi_appends_to_existing_rosters :
  existing_rosters (settings (state_of pair 0)) = []
  /\ existing_rosters (settings (final quiet_run)) = [roster_of [0; 1]%nat]
  /\ existing_rosters (settings (final quiet_run))
     <> existing_rosters (settings (state_of pair 0)).
Proof. by vm_compute. Qed.

(** The assumptions of the theorems hold on these executions. *)

Lemma run_multi_returns_rosters_and_diffs_witness :
  solver_arity Spec.collab
  /\ outcome_of verbose_run
     = Returns (accepted (events verbose_run),
                if nonempty (accepted (events verbose_run)) && true
                then check_exposure Spec.collab (accepted (events verbose_run))
                       (Some b_twice) (world (final verbose_run))
                else [])
  /\ ((length (accepted (events verbose_run)) = Z.to_nat 1
       /\ solve_flags (events verbose_run) = replicate (Z.to_nat 1) true)
      \/ ((length (accepted (events verbose_run)) < Z.to_nat 1)%nat
          /\ solve_flags (events verbose_run)
             = replicate (length (accepted (events verbose_run))) true ++ [false])).
Proof.
  split.
  - apply SpecFacts.spec_solver_arity.
  - apply (run_multi_returns_rosters_and_diffs Spec.collab
             1 both [0; 1]%nat None true (Some b_twice) SeedNone (state_of pair 0)
             SpecFacts.spec_solver_arity).
Defined.

(** The verbose run of one round: the accepted roster and its deviation. *)
Example verbose_run_result :
  outcome_of verbose_run = Returns ([roster_of [0; 1]%nat], [("b", -1)])
  /\ accepted (events verbose_run) = [roster_of [0; 1]%nat].
Proof. by vm_compute. Qed.

Lemma run_multi_halts_at_first_failure_witness :
  solve_flags (events halted_run) !! 1%nat = Some false
  /\ length (solve_flags (events halted_run)) = 2%nat
  /\ last (events halted_run)
     = Some (EvSolve false (heap (world (final halted_run))))
  /\ exists rosters diffs,
       outcome_of halted_run = Returns (rosters, diffs)
       /\ rosters = accepted (events halted_run)
       /\ length rosters = 1%nat
       /\ (1 < Z.to_nat 3)%nat.
Proof.
  split.
  - vm_compute. reflexivity.
  - apply (run_multi_halts_at_first_failure Spec.collab
             3 both [0; 1]%nat None false (Some a_at_most_once) SeedNone
             (state_of pair 0) 1%nat).
    vm_compute. reflexivity.
Defined.

Lemma run_roster_is_selection_witness :
  fst (run_solution Spec.collab five_of_ten (seq 0 10) None None
         None (state_of ten 0)) = true
  /\ exists r,
       outcome_of example_run = Returns (Some r)
       /\ r_players r
          = picks (run_players Spec.collab (seq 0 10) None (state_of ten 0))
              (snd (run_solution Spec.collab five_of_ten (seq 0 10)
                      None None None (state_of ten 0)))
       /\ sublist (r_players r)
            (run_players Spec.collab (seq 0 10) None (state_of ten 0))
       /\ forall p,
            p ∈ r_players r
            <-> exists i,
                  run_players Spec.collab (seq 0 10) None
                    (state_of ten 0) !! i = Some p
                  /\ snd (run_solution Spec.collab five_of_ten
                            (seq 0 10) None None None (state_of ten 0)) !! i = Some 1.
Proof.
  split.
  - vm_compute. reflexivity.
  - apply (run_roster_is_selection Spec.collab five_of_ten
             (seq 0 10) None None None None false (state_of ten 0)).
    + vm_compute. reflexivity.
    + apply Nat.leb_le. vm_compute. reflexivity.
    + reflexivity.
Defined.

Lemma run_multi_same_seed_same_rosters_witness :
  SeedInt 0 <> SeedNone
  /\ (seed_truthy (SeedInt 0) = true \/ generator_unused Spec.collab)
  /\ same_but_rng (state_of pair 0) (state_of pair 1)
  /\ returned_rosters (drawn_run (SeedInt 0) 0)
     = returned_rosters (drawn_run (SeedInt 0) 1)
  /\ outcome_of (drawn_run (SeedInt 0) 0) = outcome_of (drawn_run (SeedInt 0) 1)
  /\ events (drawn_run (SeedInt 0) 0) = events (drawn_run (SeedInt 0) 1)
  /\ same_but_rng (final (drawn_run (SeedInt 0) 0)) (final (drawn_run (SeedInt 0) 1)).
Proof.
  assert (SeedInt 0 <> SeedNone) as Hnonnull by discriminate.
  assert (same_but_rng (state_of pair 0) (state_of pair 1)) as Hsame
    by (repeat split; reflexivity).
  split; [exact Hnonnull|]. split; [right; apply SpecFacts.spec_generator_unused|].
  split; [exact Hsame|].
  apply (run_multi_same_seed_same_rosters Spec.collab 3 one [0; 1]%nat None false
           (Some a_or_b) (SeedInt 0) (state_of pair 0) (state_of pair 1)
           Hnonnull (or_intror SpecFacts.spec_generator_unused) Hsame).
Defined.

(** With the true seed 7 the draws of the exposure helper are the same
    from either generator state; with seed 0 nothing is drawn. *)
Example drawn_run_rosters :
  returned_rosters (drawn_run (SeedInt 7) 0) = returned_rosters (drawn_run (SeedInt 7) 1)
  /\ returned_rosters (drawn_run (SeedInt 0) 0)
     = [roster_of [0%nat]; roster_of [1%nat]; roster_of [1%nat]]
  /\ returned_rosters (drawn_run (SeedInt 0) 1)
     = [roster_of [0%nat]; roster_of [1%nat]; roster_of [1%nat]].
Proof. by vm_compute. Qed.

Lemma run_multi_false_seed_is_no_seed_witness :
  seed_truthy (SeedInt 0) = false
  /\ seedings (events (drawn_run (SeedInt 0) 0)) = []
  /\ Forall (eq false) (hint_modes (events (drawn_run (SeedInt 0) 0)))
  /\ (hints_ignore_seed Spec.collab (SeedInt 0) ->
      fst (drawn_run (SeedInt 0) 0) = fst (drawn_run SeedNone 0)).
Proof.
  split.
  - reflexivity.
  - apply (run_multi_false_seed_is_no_seed Spec.collab
             3 one [0; 1]%nat None false (Some a_or_b) (SeedInt 0)
             (state_of pair 0)).
    reflexivity.
Defined.

Lemma run_multi_failure_skips_reset_witness :
  false ∈ solve_flags (events halted_run)
  /\ last (events halted_run)
     = Some (EvSolve false (heap (world (final halted_run))))
  /\ resets (events halted_run) = length (accepted (events halted_run))
  /\ exists rosters diffs,
       outcome_of halted_run = Returns (rosters, diffs)
       /\ resets (events halted_run) = length rosters.
Proof.
  assert (false ∈ solve_flags (events halted_run)) as Hfailed.
  { apply list_elem_of_lookup. exists 1%nat. vm_compute. reflexivity. }
  split.
  - exact Hfailed.
  - apply (run_multi_failure_skips_reset Spec.collab
             3 both [0; 1]%nat None false (Some a_at_most_once) SeedNone
             (state_of pair 0) Hfailed).
Defined.

(** In the halted run the ban written by the hint of the failed round is
    still on "a" at the end, and one reset was made for the one roster. *)
Example halted_run_leaves_ban :
  ban <$> heap (world (final halted_run)) !! 0%nat = Some true
  /\ resets (events halted_run) = 1%nat
  /\ returned_rosters halted_run = [roster_of [0; 1]%nat].
Proof. by vm_compute. Qed.

Lemma run_honours_ban_and_lock_witness :
  r_players (initial_roster Spec.collab five_of_ten_150 None) = []
  /\ (Spec.feasible five_of_ten_150 (build_constraints (Some ban_a_lock_e))
        (Spec.player_at
           (Spec.overlay None
              (run_players Spec.collab (seq 0 10)
                 (Some ban_a_lock_e) (state_of ten 0))
              (heap (world (state_of ten 0))))
         <$> run_players Spec.collab (seq 0 10)
               (Some ban_a_lock_e) (state_of ten 0))
      <-> exists roster, outcome_of constrained_run = Returns (Some roster))
  /\ forall roster,
       outcome_of constrained_run = Returns (Some roster) ->
       ("a" ∈ or_empty (banned ban_a_lock_e) ->
        forall l, l ∈ r_players roster ->
                  name (Spec.player_at (heap (world (state_of ten 0))) l) <> "a")
       /\ ("a" ∈ or_empty (locked ban_a_lock_e) ->
           forall l,
             l ∈ run_players Spec.collab (seq 0 10)
                   (Some ban_a_lock_e) (state_of ten 0) ->
             name (Spec.player_at (heap (world (state_of ten 0))) l) = "a" ->
             l ∈ r_players roster).
Proof.
  split.
  - reflexivity.
  - apply (SpecFacts.run_honours_ban_and_lock five_of_ten_150
             (seq 0 10) None ban_a_lock_e None None false (state_of ten 0) "a").
    reflexivity.
Defined.

(** The roster of that run: "a" left out, "e" (player 4) in. *)
Example constrained_run_roster :
  outcome_of constrained_run = Returns (Some (roster_of [1; 3; 4; 5; 6]%nat)).
Proof. by vm_compute. Qed.

End Runs.

(** * Further properties of the code *)
Section Further.

Context {RuleSet League PoolFilters Knobs Bound ExposureDct RngState : Type}.
Variable C : Collaborators RuleSet League PoolFilters Knobs Bound ExposureDct RngState.

Implicit Types (st : State League Knobs Bound RngState)
               (rosters : list (Roster League))
               (evs : list (Event League)).

(** ** reset_player_ban_lock *)

(** X1: [reset_player_ban_lock] returns normally and touches nothing but
    the two flags of the pool's players: every stored player keeps its
    place and its name, position, cost and projection; a player of the
    pool ends with both flags false, any other player is left as it was;
    nothing is added to the store; settings, output and generator are
    unchanged. *)
Theorem reset_player_ban_lock_effect (pool : list loc) st :
  let r := reset_player_ban_lock pool st in
  outcome_of r = Returns tt
  /\ events r = []
  /\ settings (final r) = settings st
  /\ stdout (final r) = stdout st
  /\ rng (world (final r)) = rng (world st)
  /\ (forall l, heap (world st) !! l = None -> heap (world (final r)) !! l = None)
  /\ forall l p,
       heap (world st) !! l = Some p ->
       exists q,
         heap (world (final r)) !! l = Some q
         /\ name q = name p /\ pos q = pos p /\ cost q = cost p /\ proj q = proj p
         /\ (l ∈ pool -> ban q = false /\ lock q = false)
         /\ (l ∉ pool -> q = p).
Proof.
  intros r. subst r. unfold reset_player_ban_lock, outcome_of, final, events.
  cbn [fst snd world heap rng settings stdout].
  do 5 (split; [reflexivity|]). split.
  - intros l Hl. by rewrite reset_heap_lookup, Hl.
  - intros l p Hl. rewrite reset_heap_lookup, Hl.
    destruct (decide (l ∈ pool)) as [Hin|Hout]; simpl.
    + exists (clear_ban_lock p). by repeat split.
    + exists p. by repeat split.
Qed.

(** X2: resetting twice is resetting once, and a reset of a pool makes
    the flags of that pool clear whatever they were. *)
Theorem reset_heap_idempotent (pool : list loc) (h : Heap) :
  reset_heap pool (reset_heap pool h) = reset_heap pool h
  /\ flags_clear pool (reset_heap pool h).
Proof.
  split.
  - apply map_eq. intros l. rewrite !reset_heap_lookup.
    destruct (decide (l ∈ pool)); destruct (h !! l); reflexivity.
  - intros l p Hin Hp. rewrite reset_heap_lookup in Hp.
    destruct (decide (l ∈ pool)); [|done].
    destruct (h !! l) as [q|]; [|done]. by inversion Hp.
Qed.

(** ** run *)

(** X3: when the solve succeeds but the Optimizer exposes fewer variables
    than there are players, [run] raises [IndexError] at [variables[i]]:
    no roster is returned, nothing is printed even with [verbose] set,
    and the settings are as they were; the successful solve has been
    made. *)
Theorem run_too_few_values_raises rule_set pool os ps dct gen verbose st :
  let r := run C rule_set pool os ps dct gen verbose st in
  let sol := run_solution C rule_set pool os ps dct st in
  fst sol = true ->
  (length (snd sol) < length (run_players C pool ps st))%nat ->
  outcome_of r = Raises IndexError
  /\ stdout (final r) = stdout st
  /\ settings (final r) = settings st
  /\ solve_flags (events r) = [true].
Proof.
  intros r sol. subst r sol. unfold run_solution, run_players.
  intros Hsolved Hshort. rewrite run_eq. cbv zeta. rewrite Hsolved.
  apply Nat.leb_gt in Hshort. rewrite Hshort. done.
Qed.

(** X4: what [run] prints: with [verbose] off nothing; with it on, the
    league line and the roster after a successful solve, and after a
    failed one a single line carrying the settings and the number of
    players left by the pool filter. *)
Theorem run_prints rule_set pool os ps dct gen verbose st :
  let r := run C rule_set pool os ps dct gen verbose st in
  stdout (final r)
  = stdout st
    ++ match outcome_of r with
       | Returns (Some roster) =>
           if verbose
           then [OutOptimalFor (league C rule_set); OutRoster roster]
           else []
       | Returns None =>
           if verbose
           then [OutNoSolution os (length (run_players C pool ps st))]
           else []
       | Raises _ => []
       end.
Proof.
  intros r. subst r. unfold run_players. rewrite run_eq. cbv zeta.
  destruct (fst (fst (optimizer_solve C _ _)));
    [destruct (_ <=? _)%nat|]; unfold outcome_of, final, say, with_world;
    cbn [fst snd stdout]; by rewrite ?app_nil_r.
Qed.

Lemma picks_take (players : list loc) : forall values,
  picks players values = picks players (take (length players) values).
Proof.
  induction players as [|p players IH]; intros [|v values]; try done.
  simpl take. by rewrite !picks_cons, <- IH.
Qed.

(** X5: the roster a successful [run] returns is the roster the factory
    handed out (or the league's default one) with the selected players
    appended: whatever that roster already held stays in front, its
    league is kept, and solution values beyond the last player are
    not looked at. *)
Theorem run_appends_to_factory_roster rule_set pool os ps dct gen verbose st :
  let players := run_players C pool ps st in
  let sol := run_solution C rule_set pool os ps dct st in
  match outcome_of (run C rule_set pool os ps dct gen verbose st) with
  | Returns (Some r) =>
      roster_league r = roster_league (initial_roster C rule_set gen)
      /\ r_players r
         = r_players (initial_roster C rule_set gen)
           ++ picks players (take (length players) (snd sol))
      /\ (length (r_players r)
          <= length (r_players (initial_roster C rule_set gen)) + length players)%nat
  | _ => True
  end.
Proof.
  intros players sol. subst players sol. unfold run_players, run_solution.
  rewrite run_eq. cbv zeta.
  destruct (fst (fst (optimizer_solve C _ _))); [|done].
  destruct (_ <=? _)%nat; [|done].
  unfold outcome_of. cbn [fst snd roster_league r_players].
  split; [done|]. split; [by rewrite <- picks_take|].
  rewrite length_app. apply Nat.add_le_mono_l.
  etrans; [apply sublist_length, picks_sublist|done].
Qed.

(** X6: lines 20-28 hand the constraints every banned name and every
    locked name of the player settings, each once and in list order, and
    nothing else; without player settings, or with lists that are [None]
    or empty, the constraints stay empty. *)
Theorem build_constraints_collects (player_settings : option (PlayerPoolSettings PoolFilters)) :
  build_constraints player_settings
  = match player_settings with
    | Some ps => {| lc_banned := or_empty (banned ps); lc_locked := or_empty (locked ps) |}
    | None => new_constraints
    end.
Proof.
  destruct player_settings as [ps|]; [|reflexivity].
  destruct (SpecFacts.build_constraints_names ps) as [Hb Hl].
  destruct (build_constraints (Some ps)) as [b l]. simpl in *. by subst.
Qed.

(** ** run_multi *)

Section MoreRounds.
Variables (iterations : Z) (rule_set : RuleSet) (pool : list loc)
          (ps : option (PlayerPoolSettings PoolFilters)) (verbose : bool)
          (bounds : option (list Bound)) (seed : Seed).

Lemma attempt_calls st :
  let r := attempt C iterations rule_set pool ps verbose bounds seed st in
  hint_calls (events r)
  = (if list_truthy bounds
     then [(existing_rosters (settings st), iterations, seed)]
     else [])
  /\ (verbose = false -> stdout (final r) = stdout st).
Proof.
  unfold attempt, bind, get_state, emit. simpl.
  destruct (exposure_hints_eq C iterations bounds seed st) as (dct & w & ->). simpl.
  rewrite run_eq. simpl.
  destruct (filter_pool C pool ps w) as [players w1]. simpl.
  destruct (optimizer_solve C _ w1) as [[solved values] w2]. simpl.
  destruct solved; [destruct (_ <=? _)%nat|];
    destruct (list_truthy bounds); simpl; (split; [done|]);
    intros ->; simpl; by rewrite ?app_nil_r.
Qed.

(** Without [verbose] the loop prints nothing. *)
Lemma iterate_quiet k : forall rosters st,
  verbose = false ->
  stdout (final (iterate C iterations rule_set pool ps verbose bounds seed k rosters st))
  = stdout st.
Proof.
  induction k as [|k IH]; intros rosters st Hquiet; [done|].
  rewrite iterate_S.
  pose proof (attempt_calls st) as [_ Hout]. specialize (Hout Hquiet).
  destruct (attempt _ _ _ _ _ _ _ _ st) as [[[[r|]|x] st1] e1];
    unfold final in *; simpl in *; [|done|done].
  by rewrite IH.
Qed.

(** Each call of the exposure helper sees the rosters the settings held
    on entry followed by the rosters accepted so far. *)
Lemma iterate_calls k : forall rosters st,
  let r := iterate C iterations rule_set pool ps verbose bounds seed k rosters st in
  length (hint_calls (events r))
  = (if list_truthy bounds then length (solve_flags (events r)) else O)
  /\ forall i c,
       hint_calls (events r) !! i = Some c ->
       c = (existing_rosters (settings st) ++ take i (accepted (events r)),
            iterations, seed).
Proof.
  induction k as [|k IH]; intros rosters st.
  - simpl. split; [by destruct (list_truthy bounds)|]. by intros i c.
  - intros r. subst r. rewrite iterate_S.
    pose proof (attempt_calls st) as [Hcalls _].
    pose proof (attempt_facts C iterations rule_set pool ps verbose bounds seed st)
      as (Hset & _ & Hacc & _ & _ & _ & Hflags & _).
    cbv zeta in Hset, Hacc, Hflags.
    destruct (attempt _ _ _ _ _ _ _ _ st) as [[[[r|]|x] st1] e1];
      unfold outcome_of, final, events in *; simpl in *.
    + specialize (IH (rosters ++ [r]) (next_round pool r st1)).
      destruct (iterate _ _ _ _ _ _ _ _ k _ _) as [[o st3] e3]. simpl in *.
      destruct IH as [IHlen IHcalls].
      assert (hint_calls (e1 ++ EvAccept r :: EvReset :: e3)
              = hint_calls e1 ++ hint_calls e3) as ->
        by (unfold hint_calls; by rewrite omap_app).
      rewrite accepted_round, solve_flags_round, Hacc, Hcalls, Hflags, Hset in *.
      rewrite !length_app, IHlen. split.
      * by destruct (list_truthy bounds).
      * intros i c Hc. destruct (list_truthy bounds); simpl in Hc.
        -- destruct i as [|i]; simpl in Hc.
           ++ inversion Hc. by rewrite take_0, app_nil_r.
           ++ rewrite (IHcalls i c Hc). simpl. by rewrite <- app_assoc.
        -- apply lookup_lt_Some in Hc. simpl in Hc. lia.
    + rewrite Hcalls, Hflags. split; [by destruct (list_truthy bounds)|].
      intros i c Hc. destruct (list_truthy bounds); [|done].
      destruct i; [|done]. inversion Hc. by rewrite take_0, app_nil_r.
    + rewrite Hcalls, Hflags. split; [by destruct (list_truthy bounds)|].
      intros i c Hc. destruct (list_truthy bounds); [|done].
      destruct i; [|done]. inversion Hc. by rewrite take_0, app_nil_r.
Qed.

(** After a loop in which every round was accepted the pool is clear. *)
Lemma iterate_clean k : forall rosters st,
  let r := iterate C iterations rule_set pool ps verbose bounds seed k rosters st in
  length (accepted (events r)) = k -> (0 < k)%nat ->
  flags_clear pool (heap (world (final r))).
Proof.
  induction k as [|k IH]; intros rosters st; [simpl; lia|].
  intros r. subst r. rewrite iterate_S.
  pose proof (attempt_facts C iterations rule_set pool ps verbose bounds seed st)
    as (_ & _ & Hacc & _).
  cbv zeta in Hacc.
  destruct (attempt _ _ _ _ _ _ _ _ st) as [[[[r|]|x] st1] e1];
    unfold final, events in *; simpl in *.
  - rewrite accepted_round, Hacc. simpl. intros Hlen _.
    destruct k as [|k].
    + simpl. apply reset_heap_clear.
    + apply IH; lia.
  - rewrite Hacc. simpl. lia.
  - rewrite Hacc. simpl. lia.
Qed.

(** X7: with a count of zero or below no round is run: [run_multi]
    returns no roster and an empty deviation map without any solve, prints
    nothing even when [verbose] is set, and leaves players and settings as
    they are; only the seeding, for a true seed, has happened. *)
Theorem run_multi_no_rounds st :
  iterations <= 0 ->
  let r := run_multi C iterations rule_set pool ps verbose bounds seed st in
  outcome_of r = Returns ([], [])
  /\ events r = (if seed_truthy seed then [EvSeed seed] else [])
  /\ heap (world (final r)) = heap (world st)
  /\ settings (final r) = settings st
  /\ stdout (final r) = stdout st.
Proof.
  intros Hle r. subst r. rewrite run_multi_eq. cbv zeta.
  replace (Z.to_nat iterations) with O by lia. simpl.
  unfold outcome_of, final, events, reported_diffs, report, say, entry. simpl.
  rewrite !app_nil_r. by destruct (seed_truthy seed).
Qed.

(** X8: a run that returns hands back fewer rosters than asked for
    exactly when one of its solves failed, and as many as asked for
    exactly when all N solves it made succeeded; it never hands back
    more. *)
Theorem run_multi_short_iff_failed st :
  let r := run_multi C iterations rule_set pool ps verbose bounds seed st in
  match outcome_of r with
  | Returns (rosters, _) =>
      (length rosters <= Z.to_nat iterations)%nat
      /\ ((length rosters < Z.to_nat iterations)%nat
          <-> false ∈ solve_flags (events r))
      /\ (length rosters = Z.to_nat iterations
          <-> solve_flags (events r) = replicate (Z.to_nat iterations) true)
  | Raises _ => True
  end.
Proof.
  intros r. subst r.
  destruct (run_multi_parts C iterations rule_set pool ps verbose bounds seed st)
    as (-> & _ & _ & ->).
  rewrite solve_flags_seed.
  pose proof (iterate_shape C iterations rule_set pool ps verbose bounds seed
                (Z.to_nat iterations) [] (entry C seed st))
    as (_ & _ & _ & _ & _ & Hout). cbv zeta in Hout.
  destruct (outcome_of (iterate _ _ _ _ _ _ _ _ _ _ _)) as [rosters|x]; [|done].
  destruct Hout as (-> & [[Hn Hf]|(Hn & Hf & _)]); simpl; rewrite Hf.
  - split; [lia|]. split; [|done]. split; [lia|].
    intros [? _]%elem_of_replicate. done.
  - split; [lia|]. split.
    + split; [|intros _; lia].
      intros _. apply elem_of_app. right. apply list_elem_of_here.
    + split; [lia|]. intros Heq.
      assert (false ∈ replicate (Z.to_nat iterations) true) as Hin.
      { rewrite <- Heq. apply elem_of_app. right. apply list_elem_of_here. }
      apply elem_of_replicate in Hin as [? _]. done.
Qed.

(** X9: with a true seed the generator is seeded exactly once, as the
    very first step of the run and never again, and every call of the
    exposure helper is made with [use_random] on. *)
Theorem run_multi_seeds_once st :
  seed_truthy seed = true ->
  let r := run_multi C iterations rule_set pool ps verbose bounds seed st in
  exists evs,
    events r = EvSeed seed :: evs
    /\ seedings evs = []
    /\ Forall (eq true) (hint_modes (events r)).
Proof.
  intros Hseed r. subst r.
  destruct (run_multi_parts C iterations rule_set pool ps verbose bounds seed st)
    as (-> & _).
  pose proof (iterate_shape C iterations rule_set pool ps verbose bounds seed
                (Z.to_nat iterations) [] (entry C seed st))
    as (_ & _ & _ & Hs & Hm & _). cbv zeta in Hs, Hm.
  rewrite hint_modes_seed. rewrite Hseed in *. simpl. eauto.
Qed.

(** X10: the exposure helper is called once per solve when exposure
    bounds are given and never otherwise; its i-th call is handed the
    rosters the settings held on entry followed by the first i rosters
    accepted in this run, with the full iteration count and the seed as
    passed in. *)
Theorem run_multi_hints_see_history st :
  let r := run_multi C iterations rule_set pool ps verbose bounds seed st in
  length (hint_calls (events r))
  = (if list_truthy bounds then length (solve_flags (events r)) else O)
  /\ forall i c,
       hint_calls (events r) !! i = Some c ->
       c = (existing_rosters (settings st) ++ take i (accepted (events r)),
            iterations, seed).
Proof.
  intros r. subst r.
  destruct (run_multi_parts C iterations rule_set pool ps verbose bounds seed st)
    as (-> & _).
  rewrite solve_flags_seed, accepted_seed.
  assert (forall evs,
             hint_calls ((if seed_truthy seed then [EvSeed seed] else []) ++ evs)
             = hint_calls evs) as -> by (intros evs; by destruct (seed_truthy seed)).
  pose proof (iterate_calls (Z.to_nat iterations) [] (entry C seed st)) as Hcalls.
  cbv zeta in Hcalls. by rewrite entry_settings in Hcalls.
Qed.

(** X11: when all N rounds of a run (N at least 1) were accepted, the run
    ends with the ban and lock flags of every pool player false. *)
Theorem run_multi_success_leaves_flags_clear st rosters diffs :
  let r := run_multi C iterations rule_set pool ps verbose bounds seed st in
  outcome_of r = Returns (rosters, diffs) ->
  length rosters = Z.to_nat iterations ->
  0 < iterations ->
  flags_clear pool (heap (world (final r))).
Proof.
  intros r. subst r.
  destruct (run_multi_parts C iterations rule_set pool ps verbose bounds seed st)
    as (_ & -> & _ & ->).
  pose proof (iterate_shape C iterations rule_set pool ps verbose bounds seed
                (Z.to_nat iterations) [] (entry C seed st))
    as (_ & _ & _ & _ & _ & Hout). cbv zeta in Hout.
  pose proof (iterate_clean (Z.to_nat iterations) [] (entry C seed st)) as Hclean.
  cbv zeta in Hclean.
  destruct (outcome_of (iterate _ _ _ _ _ _ _ _ _ _ _)) as [rs|x]; [|done].
  destruct Hout as (-> & _). intros Hr Hlen Hpos. inversion Hr; subst rosters.
  simpl in Hlen. apply Hclean; lia.
Qed.

End MoreRounds.

(** X12: without [verbose], [run_multi] prints nothing, however many
    rounds it runs and however they end. *)
Theorem run_multi_quiet_prints_nothing iterations rule_set pool ps bounds seed st :
  stdout (final (run_multi C iterations rule_set pool ps false bounds seed st))
  = stdout st.
Proof.
  rewrite run_multi_eq. cbv zeta.
  pose proof (iterate_quiet iterations rule_set pool ps false bounds seed
                (Z.to_nat iterations) [] (entry C seed st) eq_refl) as Hquiet.
  assert (stdout (entry C seed st) = stdout st) as Hentry
    by (unfold entry; by destruct (seed_truthy seed)).
  destruct (outcome_of (iterate _ _ _ _ _ _ _ _ _ _ _)) as [rosters|x];
    unfold final in *; simpl.
  - unfold report. rewrite andb_false_r. simpl. by rewrite app_nil_r, Hquiet.
  - by rewrite Hquiet.
Qed.

(** X13: with [verbose], a run that returns at least one roster ends its
    output with the exposure table, a blank line, the exposure matrix, a
    blank line and one line per entry of the returned deviation map, in
    the map's order: UNDER for a negative deviation, OVER for any other,
    zero included. *)
Theorem run_multi_verbose_report iterations rule_set pool ps bounds seed st :
  let r := run_multi C iterations rule_set pool ps true bounds seed st in
  let loop := iterate C iterations rule_set pool ps true bounds seed
                (Z.to_nat iterations) [] (entry C seed st) in
  match outcome_of r with
  | Returns (rosters, diffs) =>
      rosters <> [] ->
      stdout (final r)
      = stdout (final loop)
        ++ [OutExposureTable rosters bounds; OutBlank;
            OutExposureMatrix rosters; OutBlank]
        ++ ((fun nd => if snd nd <? 0 then OutUnder (fst nd) (snd nd)
                       else OutOver (fst nd) (snd nd)) <$> diffs)
  | Raises _ => stdout (final r) = stdout (final loop)
  end.
Proof.
  intros r loop. subst r loop. rewrite run_multi_eq. cbv zeta.
  destruct (outcome_of (iterate _ _ _ _ _ _ _ _ _ _ _)) as [rosters|x];
    unfold outcome_of, final; simpl; [|done].
  intros Hne. unfold report, reported_diffs.
  destruct rosters as [|r0 rosters]; [done|]. reflexivity.
Qed.

End Further.

(** * Concrete executions for the further properties *)
Module MoreRuns.
Import Scenario.

Lemma run_multi_no_rounds_witness :
  -2 <= 0
  /\ outcome_of (run_multi Spec.collab (-2) both [0; 1]%nat None true
                   (Some a_at_most_once) (SeedInt 7) (state_of pair 0))
     = Returns ([], [])
  /\ events (run_multi Spec.collab (-2) both [0; 1]%nat None true
               (Some a_at_most_once) (SeedInt 7) (state_of pair 0))
     = (if seed_truthy (SeedInt 7) then [EvSeed (SeedInt 7)] else [])
  /\ heap (world (final (run_multi Spec.collab (-2) both [0; 1]%nat
                           None true (Some a_at_most_once) (SeedInt 7)
                           (state_of pair 0))))
     = heap (world (state_of pair 0))
  /\ settings (final (run_multi Spec.collab (-2) both [0; 1]%nat
                        None true (Some a_at_most_once) (SeedInt 7)
                        (state_of pair 0)))
     = settings (state_of pair 0)
  /\ stdout (final (run_multi Spec.collab (-2) both [0; 1]%nat
                      None true (Some a_at_most_once) (SeedInt 7)
                      (state_of pair 0)))
     = stdout (state_of pair 0).
Proof.
  split.
  - lia.
  - apply (run_multi_no_rounds Spec.collab (-2) both [0; 1]%nat
             None true (Some a_at_most_once) (SeedInt 7) (state_of pair 0)).
    lia.
Defined.

Lemma run_too_few_values_raises_witness :
  fst (run_solution one_variable both [0; 1]%nat None None None (state_of pair 0)) = true
  /\ (length (snd (run_solution one_variable both [0; 1]%nat None None None
                     (state_of pair 0)))
      < length (run_players one_variable [0; 1]%nat None (state_of pair 0)))%nat
  /\ outcome_of (run one_variable both [0; 1]%nat None None None None true
                   (state_of pair 0)) = Raises IndexError
  /\ stdout (final (run one_variable both [0; 1]%nat None None None None true
                      (state_of pair 0))) = stdout (state_of pair 0)
  /\ settings (final (run one_variable both [0; 1]%nat None None None None true
                        (state_of pair 0))) = settings (state_of pair 0)
  /\ solve_flags (events (run one_variable both [0; 1]%nat None None None None true
                            (state_of pair 0))) = [true].
Proof.
  assert (fst (run_solution one_variable both [0; 1]%nat None None None
                 (state_of pair 0)) = true) as Hsolved by (vm_compute; reflexivity).
  assert (length (snd (run_solution one_variable both [0; 1]%nat None None None
                         (state_of pair 0)))
          < length (run_players one_variable [0; 1]%nat None (state_of pair 0)))%nat
    as Hshort by (vm_compute; lia).
  split; [exact Hsolved|]. split; [exact Hshort|].
  apply (run_too_few_values_raises one_variable both [0; 1]%nat None None None None
           true (state_of pair 0) Hsolved Hshort).
Defined.

Lemma run_multi_seeds_once_witness :
  seed_truthy (SeedInt 7) = true
  /\ exists evs,
       events (drawn_run (SeedInt 7) 0) = EvSeed (SeedInt 7) :: evs
       /\ seedings evs = []
       /\ Forall (eq true) (hint_modes (events (drawn_run (SeedInt 7) 0))).
Proof.
  split.
  - reflexivity.
  - apply (run_multi_seeds_once Spec.collab 3 one [0; 1]%nat
             None false (Some a_or_b) (SeedInt 7) (state_of pair 0)).
    reflexivity.
Defined.

Lemma run_multi_success_leaves_flags_clear_witness :
  outcome_of prebanned_run = Returns ([roster_of [0%nat]; roster_of [1%nat]], [])
  /\ length [roster_of [0%nat]; roster_of [1%nat]] = Z.to_nat 2
  /\ 0 < 2
  /\ flags_clear [0; 1]%nat (heap (world (final prebanned_run))).
Proof.
  assert (outcome_of prebanned_run
          = Returns ([roster_of [0%nat]; roster_of [1%nat]], [])) as Hout
    by (vm_compute; reflexivity).
  split; [exact Hout|]. split; [reflexivity|]. split; [lia|].
  apply (run_multi_success_leaves_flags_clear Spec.collab 2 one
           [0; 1]%nat None false None SeedNone (state_of pair_b_banned 0)
           [roster_of [0%nat]; roster_of [1%nat]] [] Hout); [reflexivity|lia].
Defined.

End MoreRuns.
